(** * Mbed CI Test Shield: SPI test core and host verification channel

    A shallow embedding of the SPI basic test ([SPITest.cpp], the file
    whose asynchronous cases drive the transfer queue) and of the pieces
    of the Mbed runtime it relies on:
    - [Greentea]: the host message channel used by
      [assert_next_message_from_host] and the [host_*] helpers, with the
      C library ([strncmp]) and Unity ([TEST_ASSERT_EQUAL_STRING_LEN])
      comparisons written out character by character;
    - [Wire]: words clocked onto the bus at a configured width, captured
      by the logic analyzer as bytes;
    - [Handles]: several SPI objects sharing one physical bus;
    - [Engine]: the asynchronous transfer queue with abort;
    - [I2CBus]: the I2C transactions of [I2CBasicTest.cpp]. *)

From Stdlib Require Import String Ascii List ZArith Lia Bool.
Import ListNotations.

(* ------------------------------------------------------------------ *)
(** ** Host verification channel *)

Module Greentea.

Open Scope string_scope.

(** One key/value message exchanged with the host test script. *)
Record kv := mk_kv { kv_key : string; kv_value : string }.

(** A Rocq string seen as a C string: reading past its end yields the
    terminating NUL. *)
Definition char_at (s : string) : ascii :=
  match s with
  | EmptyString => zero
  | String c _ => c
  end.

Definition str_tail (s : string) : string :=
  match s with
  | EmptyString => EmptyString
  | String _ s' => s'
  end.

(** C's [strncmp]: compare at most [n] characters, stopping at the first
    difference or at a common terminating NUL; the result is the
    difference of the first differing (unsigned) characters. *)
Fixpoint strncmp (n : nat) (s1 s2 : string) : Z :=
  match n with
  | O => 0%Z
  | S n' =>
      let c1 := char_at s1 in
      let c2 := char_at s2 in
      if negb (Ascii.eqb c1 c2)
      then (Z.of_nat (nat_of_ascii c1) - Z.of_nat (nat_of_ascii c2))%Z
      else if Ascii.eqb c1 zero then 0%Z
      else strncmp n' (str_tail s1) (str_tail s2)
  end.

(** Unity's [TEST_ASSERT_EQUAL_STRING_LEN(expected, actual, len)]:
    [for (i = 0; i < len && (expected[i] || actual[i]); i++)
       if (expected[i] != actual[i]) fail;] *)
Fixpoint unity_string_len_equal (expected actual : string) (len : nat) : bool :=
  match len with
  | O => true
  | S len' =>
      let e := char_at expected in
      let a := char_at actual in
      if Ascii.eqb e zero && Ascii.eqb a zero then true
      else if negb (Ascii.eqb e a) then false
      else unity_string_len_equal (str_tail expected) (str_tail actual) len'
  end.

(** [greentea_parse_kv(key, value, key_size, value_size)] fills
    caller-provided buffers: each field keeps at most [size - 1]
    characters and is NUL-terminated. *)
Definition greentea_parse_kv (m : kv) (key_size value_size : nat) : string * string :=
  (substring 0 (key_size - 1) (kv_key m), substring 0 (value_size - 1) (kv_value m)).

(** [char receivedKey[64], receivedValue[64];] *)
Definition receivedKey_size : nat := 64.
Definition receivedValue_size : nat := 64.

(** Result of a Unity assertion inside a test case. A failed assertion is
    a test-level failure; it is the only failure this helper reports. *)
Inductive verdict := Pass | AssertFail.

(** [assert_next_message_from_host(key, expectedVal)] over the messages
    that arrive from the host. [None]: every message read so far was
    discarded and the loop is still blocked in [greentea_parse_kv];
    [Some (r, rest)]: the loop left with verdict [r], [rest] unread. *)
Fixpoint assert_next_message_from_host (key expectedVal : string) (incoming : list kv)
  : option (verdict * list kv) :=
  match incoming with
  | [] => None
  | m :: incoming' =>
      let '(receivedKey, receivedValue) :=
        greentea_parse_kv m receivedKey_size receivedValue_size in
      if Z.eqb (strncmp (receivedKey_size - 1) key receivedKey) 0 then
        Some ((if unity_string_len_equal expectedVal receivedValue (receivedKey_size - 1)
               then Pass else AssertFail), incoming')
      else assert_next_message_from_host key expectedVal incoming'
  end.

(** The channel as the device sees it: messages sent so far, messages
    still to be read. *)
Record channel := mk_channel { sent : list kv; incoming : list kv }.

(** [greentea_send_kv(key, value)]. *)
Definition greentea_send_kv (key value : string) (ch : channel) : channel :=
  mk_channel (sent ch ++ [mk_kv key value]) (incoming ch).

(** The send-then-assert pattern of [host_start_spi_logging],
    [host_print_spi_data] and [host_assert_standard_message]. *)
Definition host_request (key value expectedVal : string) (ch : channel)
  : option (verdict * channel) :=
  let ch1 := greentea_send_kv key value ch in
  match assert_next_message_from_host key expectedVal (incoming ch1) with
  | None => None
  | Some (r, rest) => Some (r, mk_channel (sent ch1) rest)
  end.

Definition host_start_spi_logging := host_request "start_recording_spi" "please" "complete".
Definition host_print_spi_data := host_request "print_spi_data" "please" "complete".
Definition host_assert_standard_message := host_request "verify_standard_message" "please" "pass".

(** The length bound both comparisons use: [sizeof(receivedKey) - 1]. *)
Definition cmp_bound : nat := receivedKey_size - 1.

(** A C string holds no NUL before its end. *)
Fixpoint no_nulb (s : string) : bool :=
  match s with
  | EmptyString => true
  | String c s' => negb (Ascii.eqb c zero) && no_nulb s'
  end.

Definition no_nul (s : string) : Prop := no_nulb s = true.

(** Every key and value the host sends is a C string. *)
Definition c_strings (incoming : list kv) : Prop :=
  forallb (fun m => no_nulb (kv_key m) && no_nulb (kv_value m)) incoming = true.

(** The key of [m] as the device reads it agrees with [key] on the
    first [cmp_bound] characters, all that [strncmp] compares. *)
Definition key_matches (key : string) (m : kv) : bool :=
  String.eqb (substring 0 cmp_bound (kv_key m)) (substring 0 cmp_bound key).

(** Reference behaviour of the drain loop: the first message whose key
    matches, with the messages after it. *)
Fixpoint first_match (key : string) (incoming : list kv) : option (kv * list kv) :=
  match incoming with
  | [] => None
  | m :: incoming' => if key_matches key m then Some (m, incoming') else first_match key incoming'
  end.

(** The value of [m] as it lands in [receivedValue]. *)
Definition received_value (m : kv) : string :=
  snd (greentea_parse_kv m receivedKey_size receivedValue_size).

(** [n] copies of the character [c] (test data). *)
Fixpoint repeat_char (n : nat) (c : ascii) : string :=
  match n with
  | O => EmptyString
  | S n' => String c (repeat_char n' c)
  end.

End Greentea.

(* ------------------------------------------------------------------ *)
(** ** Words on the wire *)

Module Wire.
Open Scope Z_scope.

(** [uint8_t const standardMessageBytes[] = {0x01, 0x02, 0x04, 0x08};] *)
Definition standardMessageBytes : list Z := [1; 2; 4; 8].

(** [uint16_t const standardMessageUint16s[] = {0x0102, 0x0408};] *)
Definition standardMessageUint16s : list Z := [258; 1032].

(** [uint32_t const standardMessageUint32 = 0x01020408;] *)
Definition standardMessageUint32 : Z := 16909320.

(** Modelled from the spec: the bus peripheral (section 4.3 (a)) clocks
    each word out most-significant bit first, [bits] bits per word. *)
Definition clock_word (bits : nat) (w : Z) : list bool :=
  map (fun i => Z.testbit w (Z.of_nat (bits - 1 - i))) (seq 0 bits).

(** MSB-first bits back to a number. *)
Definition bits_to_Z (bs : list bool) : Z :=
  fold_left (fun acc (b : bool) => acc * 2 + (if b then 1 else 0)) bs 0.

(** Modelled from the spec: the logic analyzer of the test shield decodes
    the recorded MOSI line as a sequence of bytes. *)
Fixpoint group8 (fuel : nat) (bs : list bool) : list Z :=
  match fuel with
  | O => []
  | S fuel' =>
      match bs with
      | [] => []
      | _ :: _ => bits_to_Z (firstn 8 bs) :: group8 fuel' (skipn 8 bs)
      end
  end.

Definition capture (bs : list bool) : list Z := group8 (length bs) bs.

(** The SPI object as the test drives it: MOSI bits recorded since
    [host_start_spi_logging], and the word width set by [format]. *)
Record spi_bus := mk_bus { wire : list bool; word_bits : nat }.

(** [spi->format(bits, spiMode)]. *)
Definition format (bits : nat) (b : spi_bus) : spi_bus := mk_bus (wire b) bits.

(** [spi->write(word)]: single-word API. *)
Definition spi_write (w : Z) (b : spi_bus) : spi_bus :=
  mk_bus (wire b ++ clock_word (word_bits b) w) (word_bits b).

(** [spi->format(bits); spi->select(); for (word : words) spi->write(word);
    spi->deselect();] *)
Definition write_single_word (bits : nat) (words : list Z) (b : spi_bus) : spi_bus :=
  fold_left (fun b w => spi_write w b) words (format bits b).

Definition write_single_word_uint8 := write_single_word 8 standardMessageBytes.
Definition write_single_word_uint16 := write_single_word 16 standardMessageUint16s.
Definition write_single_word_uint32 (b : spi_bus) : spi_bus :=
  spi_write standardMessageUint32 (format 32 b).

(** Bus state right after [host_start_spi_logging]: nothing recorded
    yet, at whatever word width the previous test case left. *)
Definition logging_started (bits : nat) : spi_bus := mk_bus [] bits.

(** Modelled from the spec: the host's reply to [verify_standard_message]
    is [pass] when the recorded bytes are the standard message, [fail]
    otherwise. *)
Definition host_verify_standard_message (captured : list Z) : string :=
  if list_eq_dec Z.eq_dec captured standardMessageBytes then "pass"%string else "fail"%string.

End Wire.

(* ------------------------------------------------------------------ *)
(** ** Several SPI objects on one bus *)

Module Handles.
Import Wire.
Open Scope Z_scope.

Inductive DMAUsage :=
  | DMA_USAGE_NEVER | DMA_USAGE_OPPORTUNISTIC | DMA_USAGE_ALWAYS
  | DMA_USAGE_TEMPORARY_ALLOCATED | DMA_USAGE_ALLOCATED.

(** The configuration an [SPI] object keeps for itself. *)
Record spi_config := mk_cfg { cfg_bits : nat; cfg_freq : Z; cfg_dma : DMAUsage }.

(** [new SPI(...)]: 8-bit words, 1 MHz, no DMA. *)
Definition default_config : spi_config := mk_cfg 8 1000000 DMA_USAGE_NEVER.

(** [const uint32_t spiFreq = 1000000;] *)
Definition spiFreq : Z := 1000000.

(** Live [SPI] objects, by name, and the MOSI bits recorded on the shared
    physical bus. *)
Record bus := mk_hbus { handles : list (nat * spi_config); mosi : list bool }.

Fixpoint lookup (h : nat) (l : list (nat * spi_config)) : option spi_config :=
  match l with
  | [] => None
  | (h', c) :: l' => if Nat.eqb h h' then Some c else lookup h l'
  end.

Fixpoint remove_handle (h : nat) (l : list (nat * spi_config)) : list (nat * spi_config) :=
  match l with
  | [] => []
  | (h', c) :: l' => if Nat.eqb h h' then remove_handle h l' else (h', c) :: remove_handle h l'
  end.

(** Calls the test makes on the objects. *)
Inductive op :=
  | NewSPI (h : nat)
  | DeleteSPI (h : nat)
  | Format (h : nat) (bits : nat)
  | Frequency (h : nat) (f : Z)
  | SetDMAUsage (h : nat) (d : DMAUsage)
  | WriteTx (h : nat) (data : list Z)          (* [write(tx, len, nullptr, 0)] *)
  | TransferAndWait (h : nat) (data : list Z). (* [transfer_and_wait(tx, len, nullptr, 0)] *)

Definition reconfigure (h : nat) (f : spi_config -> spi_config) (st : bus) : option bus :=
  match lookup h (handles st) with
  | None => None
  | Some c => Some (mk_hbus ((h, f c) :: remove_handle h (handles st)) (mosi st))
  end.

(** Modelled from the spec (section 4.3 (e)): every transfer is clocked
    with the configuration of the object that issues it, whichever other
    objects were created or destroyed before; an object used after
    [delete] is an error ([None]). *)
Definition transmit (h : nat) (data : list Z) (st : bus) : option bus :=
  match lookup h (handles st) with
  | None => None
  | Some c => Some (mk_hbus (handles st) (mosi st ++ concat (map (clock_word (cfg_bits c)) data)))
  end.

Definition step (o : op) (st : bus) : option bus :=
  match o with
  | NewSPI h => Some (mk_hbus ((h, default_config) :: remove_handle h (handles st)) (mosi st))
  | DeleteSPI h =>
      match lookup h (handles st) with
      | None => None
      | Some _ => Some (mk_hbus (remove_handle h (handles st)) (mosi st))
      end
  | Format h bits => reconfigure h (fun c => mk_cfg bits (cfg_freq c) (cfg_dma c)) st
  | Frequency h f => reconfigure h (fun c => mk_cfg (cfg_bits c) f (cfg_dma c)) st
  | SetDMAUsage h d => reconfigure h (fun c => mk_cfg (cfg_bits c) (cfg_freq c) d) st
  | WriteTx h data => transmit h data st
  | TransferAndWait h data => transmit h data st
  end.

Fixpoint run (ops : list op) (st : bus) : option bus :=
  match ops with
  | [] => Some st
  | o :: ops' => match step o st with None => None | Some st' => run ops' st' end
  end.

(** The global [spi] and the two extra objects of the test. *)
Definition spi : nat := 0.
Definition spi2 : nat := 1.
Definition spi3 : nat := 2.

(** [standardMessageBytes + k], length [len]. *)
Definition msg_slice (k len : nat) : list Z := firstn len (skipn k standardMessageBytes).

(** [use_multiple_spi_objects], between [host_start_spi_logging] and
    [host_assert_standard_message]. *)
Definition use_multiple_spi_objects : list op :=
  [NewSPI spi2; NewSPI spi3;
   Format spi 8; Frequency spi spiFreq;
   Format spi2 8; Frequency spi2 spiFreq;
   Format spi3 8; Frequency spi3 spiFreq;
   WriteTx spi (msg_slice 0 1);
   WriteTx spi2 (msg_slice 1 1);
   DeleteSPI spi2;
   WriteTx spi3 (msg_slice 2 1);
   DeleteSPI spi3;
   WriteTx spi (msg_slice 3 1)].

(** [async_use_multiple_spi_objects<dmaUsage>]. *)
Definition async_use_multiple_spi_objects (dmaUsage : DMAUsage) : list op :=
  [NewSPI spi2; NewSPI spi3;
   Format spi 8; Frequency spi spiFreq; SetDMAUsage spi dmaUsage;
   Format spi2 8; Frequency spi2 spiFreq; SetDMAUsage spi2 dmaUsage;
   Format spi3 8; Frequency spi3 spiFreq; SetDMAUsage spi3 dmaUsage;
   TransferAndWait spi (msg_slice 0 1);
   TransferAndWait spi2 (msg_slice 1 1);
   DeleteSPI spi2;
   TransferAndWait spi3 (msg_slice 2 1);
   DeleteSPI spi3;
   TransferAndWait spi (msg_slice 3 1)].

(** The bus when logging starts: only the global [spi] exists, configured
    as the previous test case left it. *)
Definition logging_started_with (cfg0 : spi_config) : bus := mk_hbus [(spi, cfg0)] [].

End Handles.

(* ------------------------------------------------------------------ *)
(** ** Asynchronous transfer queue *)

(** Modelled from the spec: the transfer queue of the SPI driver
    ([spi->transfer], [spi->abort_transfer] and the completion interrupt),
    which is not part of this repository; sections 3, 4.1, 5 and 7 of the
    spec (FIFO queue, at most one active transfer at its head, abort of the
    active transfer only, [InvalidDescriptor]), with the event flags of
    the SPI API that [async_queue_and_abort] uses, and one notification
    per dispatched transfer (spec 5(b)). One [clock] step is one word
    clocked by the hardware. *)
Module Engine.
Open Scope Z_scope.

(** Event flags of the SPI API. *)
Definition SPI_EVENT_ERROR : Z := Z.shiftl 1 1.
Definition SPI_EVENT_COMPLETE : Z := Z.shiftl 1 2.
Definition SPI_EVENT_RX_OVERFLOW : Z := Z.shiftl 1 3.
Definition SPI_EVENT_ALL : Z :=
  Z.lor SPI_EVENT_ERROR (Z.lor SPI_EVENT_COMPLETE SPI_EVENT_RX_OVERFLOW).

(** The aborted flag of the spec's notifications (sections 3 and 5(b)).
    The SPI API's event constants have no value for it; it is given the
    next free bit. *)
Definition SPI_EVENT_ABORTED : Z := Z.shiftl 1 4.

(** A queued transfer: its transmit and receive buffers as the caller
    passed them, the words received so far, and the events of interest. *)
Record transfer := mk_transfer {
  xid : nat;
  tx_buf : option (list Z);
  rx_buf : option (list Z);
  got : list Z;
  event_mask : Z }.

Definition buf_len (b : option (list Z)) : nat :=
  match b with None => 0%nat | Some l => length l end.

(** Words the transfer clocks: the longer of its two buffers. *)
Definition xfer_len (t : transfer) : nat := Nat.max (buf_len (tx_buf t)) (buf_len (rx_buf t)).

Definition clocked (t : transfer) : nat := length (got t).

(** The caller's receive buffer: the received words over its first
    positions, the original contents after them. *)
Definition rx_contents (t : transfer) : option (list Z) :=
  option_map (fun r => firstn (length r) (got t) ++ skipn (length (got t)) r) (rx_buf t).

Record outcome := mk_outcome {
  completed : bool; aborted : bool; errored : bool; bytesTransferred : nat }.

(** A retired transfer: its outcome, its receive buffer, and the event
    its callback was called with, if it was called. *)
Record retired_transfer := mk_retired {
  rid : nat;
  result : outcome;
  rx_final : option (list Z);
  callback_event : option Z }.

(** The value of the test's [volatile int callbackEvent = 0], which only
    the callback writes. *)
Definition observed_event (r : retired_transfer) : Z :=
  match callback_event r with None => 0 | Some ev => ev end.

(** Queue (head = active transfer), retired transfers in retirement
    order, ids in the order they were dispatched to the hardware, next id. *)
Record engine := mk_engine {
  queue : list transfer;
  retired : list retired_transfer;
  dispatched : list nat;
  next_id : nat }.

Definition init : engine := mk_engine [] [] [] 0.

Inductive engine_error := InvalidDescriptor.

Definition nonempty_or_absent (b : option (list Z)) : bool :=
  match b with Some [] => false | _ => true end.

(** Both buffers absent, or a buffer present with length zero, is
    malformed. *)
Definition valid_descriptor (tx rx : option (list Z)) : bool :=
  match tx, rx with
  | None, None => false
  | _, _ => nonempty_or_absent tx && nonempty_or_absent rx
  end.

(** [enqueue]: append; a transfer entering an empty queue is dispatched. *)
Definition enqueue (tx rx : option (list Z)) (mask : Z) (e : engine)
  : (nat * engine) + engine_error :=
  if valid_descriptor tx rx then
    let t := mk_transfer (next_id e) tx rx [] mask in
    inl (next_id e,
         mk_engine (queue e ++ [t]) (retired e)
           (match queue e with [] => dispatched e ++ [next_id e] | _ => dispatched e end)
           (S (next_id e)))
  else inr InvalidDescriptor.

(** Retire the head: the next transfer, if any, is dispatched. *)
Definition advance (rest : list transfer) (r : retired_transfer) (e : engine) : engine :=
  mk_engine rest (retired e ++ [r])
    (match rest with [] => dispatched e | t :: _ => dispatched e ++ [xid t] end)
    (next_id e).

(** The hardware clocks one word of the active transfer, receiving
    [miso]; the last word completes it and the callback gets
    [SPI_EVENT_COMPLETE & mask] when that is not zero. *)
Definition clock (miso : Z) (e : engine) : engine :=
  match queue e with
  | [] => e
  | t :: rest =>
      let t' := mk_transfer (xid t) (tx_buf t) (rx_buf t) (got t ++ [miso]) (event_mask t) in
      if Nat.eqb (clocked t') (xfer_len t') then
        let ev := Z.land SPI_EVENT_COMPLETE (event_mask t) in
        advance rest
          (mk_retired (xid t) (mk_outcome true false false (clocked t')) (rx_contents t')
             (if Z.eqb ev 0 then None else Some ev)) e
      else mk_engine (t' :: rest) (retired e) (dispatched e) (next_id e)
  end.

(** [abort_transfer]: stop the active transfer where it is, retire it
    with the aborted flag and no completion flag (spec 4.3(b)), deliver
    that notification, its one notification (spec 5(b)), and dispatch the
    next transfer; no-op when idle. *)
Definition abort_transfer (e : engine) : engine :=
  match queue e with
  | [] => e
  | t :: rest =>
      advance rest
        (mk_retired (xid t) (mk_outcome false true false (clocked t)) (rx_contents t)
           (Some SPI_EVENT_ABORTED)) e
  end.

(** What the foreground and the hardware can do. *)
Inductive event :=
  | EEnqueue (tx rx : option (list Z)) (mask : Z)
  | EClock (miso : Z)
  | EAbort.

Definition engine_step (ev : event) (e : engine) : engine :=
  match ev with
  | EEnqueue tx rx mask => match enqueue tx rx mask e with inl (_, e') => e' | inr _ => e end
  | EClock miso => clock miso e
  | EAbort => abort_transfer e
  end.

Definition run_events (evs : list event) (e : engine) : engine :=
  fold_left (fun e ev => engine_step ev e) evs e.

Definition is_abort (ev : event) : bool := match ev with EAbort => true | _ => false end.

Definition clock_words (ms : list Z) (e : engine) : engine :=
  fold_left (fun e m => clock m e) ms e.

Fixpoint find_retired (i : nat) (rs : list retired_transfer) : option retired_transfer :=
  match rs with
  | [] => None
  | r :: rs' => if Nat.eqb (rid r) i then Some r else find_retired i rs'
  end.

(** [uint8_t const longMessage[32] = {0x01, 0x02, };] *)
Definition longMessage : list Z := [1; 2] ++ repeat 0 30.

(** [const uint8_t TEST_PATTERN = 0xAF;] *)
Definition TEST_PATTERN : Z := 175.

Definition count_pattern (buf : option (list Z)) : nat :=
  match buf with None => 0%nat | Some l => length (filter (Z.eqb TEST_PATTERN) l) end.

(** [async_queue_and_abort]: two transfers of [longMessage] into buffers
    filled with [TEST_PATTERN], [k] words clocked during [wait_us(100)],
    [abort_transfer()], then the 32 words of the second transfer during the
    5 ms sleep; [miso] is the data on the line. Result: [callbackEvent1],
    [callbackEvent2], [testPatternCountBuf1], [testPatternCountBuf2]. *)
Definition async_queue_and_abort (k : nat) (miso : list Z) : option (Z * Z * nat * nat) :=
  let buf := Some (repeat TEST_PATTERN 32) in
  match enqueue (Some longMessage) buf SPI_EVENT_ALL init with
  | inr _ => None
  | inl (id1, e1) =>
      match enqueue (Some longMessage) buf SPI_EVENT_ALL e1 with
      | inr _ => None
      | inl (id2, e2) =>
          let e3 := clock_words (firstn k miso) e2 in
          let e4 := abort_transfer e3 in
          let e5 := clock_words (firstn 32 (skipn k miso)) e4 in
          match find_retired id1 (retired e5), find_retired id2 (retired e5) with
          | Some r1, Some r2 =>
              Some (observed_event r1, observed_event r2,
                    count_pattern (rx_final r1), count_pattern (rx_final r2))
          | _, _ => None
          end
      end
  end.

(** The test scenario of [async_queue_and_abort] after [k] clocked words
    of data [0]: two transfers of [longMessage] into pattern-filled
    buffers, interested in [SPI_EVENT_ALL]. *)
Definition queue_and_abort_events (k : nat) : list event :=
  [EEnqueue (Some longMessage) (Some (repeat TEST_PATTERN 32)) SPI_EVENT_ALL;
   EEnqueue (Some longMessage) (Some (repeat TEST_PATTERN 32)) SPI_EVENT_ALL] ++
  map EClock (repeat 0%Z k).

Definition queue_and_abort_first (k : nat) : transfer :=
  mk_transfer 0 (Some longMessage) (Some (repeat TEST_PATTERN 32)) (repeat 0%Z k) SPI_EVENT_ALL.

Definition queue_and_abort_second : transfer :=
  mk_transfer 1 (Some longMessage) (Some (repeat TEST_PATTERN 32)) [] SPI_EVENT_ALL.

End Engine.

(** ** The I2C driver

    Modelled from the spec: the I2C driver of Mbed OS is not part of this
    repository; [I2CBasicTest.cpp] only calls it. It is modelled at the
    level of bus bytes: after a start condition the first byte is the
    address byte, acknowledged only by a peer whose 7-bit address it
    carries; data bytes are acknowledged by the addressed peer, if any.
    Every operation returns a [Result] value, and a transaction the peer
    rejected is ended with a stop condition. Timeouts are not modelled (the
    bus never stalls). *)
Module I2CBus.
Open Scope Z_scope.

Inductive Result := ACK | NACK | TIMEOUT | OTHER_ERROR.

Inductive bus_event := BStart | BStop | BByte (b : Z) (acked : bool) | BRead (n : nat).

(** Where the bus is in a transaction: no transaction, waiting for the
    address byte, or in the data phase with the peer that acknowledged
    its address (none if the address was rejected). *)
Inductive phase := Idle | Address | Data (peer : option Z).

Record i2c := mk_i2c { responders : list Z; phase_of : phase; trace : list bus_event }.

Definition addressed (d : i2c) (addr_byte : Z) : bool :=
  existsb (Z.eqb (Z.shiftr addr_byte 1)) (responders d).

Definition start (d : i2c) : i2c := mk_i2c (responders d) Address (trace d ++ [BStart]).

Definition stop (d : i2c) : i2c := mk_i2c (responders d) Idle (trace d ++ [BStop]).

Definition write_byte (data : Z) (d : i2c) : Result * i2c :=
  match phase_of d with
  | Address =>
      let ack := addressed d data in
      (if ack then ACK else NACK,
       mk_i2c (responders d) (Data (if ack then Some (Z.shiftr data 1) else None))
         (trace d ++ [BByte data ack]))
  | Data (Some p) => (ACK, mk_i2c (responders d) (Data (Some p)) (trace d ++ [BByte data true]))
  | Data None | Idle => (NACK, mk_i2c (responders d) (phase_of d) (trace d ++ [BByte data false]))
  end.

Fixpoint write_bytes (data : list Z) (d : i2c) : Result * i2c :=
  match data with
  | [] => (ACK, d)
  | x :: xs =>
      match write_byte x d with
      | (ACK, d') => write_bytes xs d'
      | (r, d') => (r, d')
      end
  end.

Definition write (address : Z) (data : list Z) (length : nat) (repeated : bool) (d : i2c)
  : Result * i2c :=
  match write_byte (Z.land address (Z.lnot 1)) (start d) with
  | (ACK, d2) =>
      match write_bytes (firstn length data) d2 with
      | (ACK, d3) => (ACK, if repeated then d3 else stop d3)
      | (r, d3) => (r, stop d3)
      end
  | (r, d2) => (r, stop d2)
  end.

Definition read (address : Z) (length : nat) (repeated : bool) (d : i2c) : Result * i2c :=
  match write_byte (Z.lor address 1) (start d) with
  | (ACK, d2) =>
      let d3 := mk_i2c (responders d2) (phase_of d2) (trace d2 ++ [BRead length]) in
      (ACK, if repeated then d3 else stop d3)
  | (r, d2) => (r, stop d2)
  end.

Definition transfer_and_wait (address : Z) (tx : list Z) (tx_length rx_length : nat) (d : i2c)
  : Result * i2c :=
  if Nat.eqb rx_length 0 then write address tx tx_length false d
  else if Nat.eqb tx_length 0 then read address rx_length false d
  else match write address tx tx_length true d with
       | (ACK, d') => read address rx_length false d'
       | (r, d') => (r, d')
       end.

(** The test's bus: the 24FC02 EEPROM at 8-bit address [0xA0]. *)
Definition EEPROM_I2C_ADDRESS : Z := 160.

Definition test_bus : i2c := mk_i2c [Z.shiftr EEPROM_I2C_ADDRESS 1] Idle [].

Definition ends_with_stop (d : i2c) : Prop := exists l, trace d = l ++ [BStop].

End I2CBus.

(** ** The transactional-API tests of the SPI test *)
Module Transactional.
Import Wire.
Open Scope Z_scope.

(** [getMessage(wordSize)]: the standard message as an array of words of
    [wordSize] bytes; [nullptr] ([None]) for any other size. *)
Definition getMessage (wordSize : nat) : option (list Z) :=
  match wordSize with
  | 1%nat => Some standardMessageBytes
  | 2%nat => Some standardMessageUint16s
  | 4%nat => Some [standardMessageUint32]
  | _ => None
  end.

(** [sizeof(standardMessageBytes)]. *)
Definition sizeof_standardMessageBytes : nat := length standardMessageBytes.

(** The fill word the driver sends once [tx] is used up: all ones. *)
Definition fill_word (bits : nat) : Z := Z.ones (Z.of_nat bits).

(** Modelled from the spec: [spi->write(tx, tx_length, rx, rx_length)],
    lengths in bytes, clocks [max(tx_length, rx_length) / sizeof(Word)]
    words: the first [tx_length / sizeof(Word)] words of [tx], then the
    fill word. *)
Definition write_buffers (wordSize : nat) (tx : option (list Z)) (tx_length rx_length : nat)
  (b : spi_bus) : spi_bus :=
  let txw := match tx with None => [] | Some l => firstn (tx_length / wordSize) l end in
  let n := (Nat.max tx_length rx_length / wordSize)%nat in
  fold_left (fun b w => spi_write w b) (txw ++ repeat (fill_word (word_bits b)) (n - length txw)) b.

(** [write_transactional_tx_only<Word>] with [sizeof(Word) = wordSize],
    between [host_start_spi_logging] and [host_assert_standard_message]. *)
Definition write_transactional_tx_only (wordSize : nat) (b : spi_bus) : spi_bus :=
  write_buffers wordSize (getMessage wordSize) sizeof_standardMessageBytes 0
    (format (wordSize * 8) b).

(** [write_transactional_tx_rx<Word>], same span. *)
Definition write_transactional_tx_rx (wordSize : nat) (b : spi_bus) : spi_bus :=
  write_buffers wordSize (getMessage wordSize) sizeof_standardMessageBytes
    sizeof_standardMessageBytes (format (wordSize * 8) b).

(** Storing the first [rx_length] received bytes into a caller's array;
    a store past its end is out of bounds ([None]). *)
Definition store_rx (buf : list Z) (rx_length : nat) (data : list Z) : option (list Z) :=
  if Nat.leb rx_length (length buf)
  then Some (firstn rx_length data ++ skipn rx_length buf) else None.

(** [char rxBytes[sizeof(standardMessageBytes) / sizeof(Word)] {};] of
    [write_transactional_rx_only<Word>], as bytes. *)
Definition rx_only_buffer (wordSize : nat) : list Z :=
  repeat 0 (sizeof_standardMessageBytes / wordSize).

(** [Word rxBytes[sizeof(standardMessageBytes) / sizeof(Word)] {};] of
    [write_transactional_tx_rx<Word>], as bytes. *)
Definition tx_rx_buffer (wordSize : nat) : list Z :=
  repeat 0 (sizeof_standardMessageBytes / wordSize * wordSize).

(** The receive side of both tests: [rx_length] is
    [sizeof(standardMessageBytes)] bytes in each. *)
Definition write_transactional_rx_only_rx (wordSize : nat) (data : list Z) : option (list Z) :=
  store_rx (rx_only_buffer wordSize) sizeof_standardMessageBytes data.

Definition write_transactional_tx_rx_rx (wordSize : nat) (data : list Z) : option (list Z) :=
  store_rx (tx_rx_buffer wordSize) sizeof_standardMessageBytes data.

End Transactional.

(** ** Deleting and re-creating the global SPI object *)
Module Reallocate.
Import Wire Handles.
Open Scope Z_scope.

(** [free_and_reallocate_spi], between [host_start_spi_logging] and
    [host_assert_standard_message]. *)
Definition free_and_reallocate_spi : list op :=
  [DeleteSPI spi; NewSPI spi; Frequency spi spiFreq; SetDMAUsage spi DMA_USAGE_NEVER;
   WriteTx spi (msg_slice 0 4)].

(** [async_free_and_reallocate_spi<dmaUsage>], same span. *)
Definition async_free_and_reallocate_spi (dmaUsage : DMAUsage) : list op :=
  [DeleteSPI spi; NewSPI spi; Frequency spi spiFreq; SetDMAUsage spi dmaUsage;
   TransferAndWait spi (msg_slice 0 4)].

End Reallocate.

(** ** The EEPROM test's string helpers *)
Module EEPROMTest.
Open Scope Z_scope.

(** [buffer[i] = v] on a C array; out of bounds is [None]. *)
Definition store (buffer : list Z) (i : Z) (v : Z) : option (list Z) :=
  if (0 <=? i) && (i <? Z.of_nat (length buffer))
  then Some (firstn (Z.to_nat i) buffer ++ v :: skipn (S (Z.to_nat i)) buffer)
  else None.

(** The loop [for (; x < ...; x++) buffer[x] = 'A' + (rand() % 26);]
    for [n] iterations from [x]; [rand x] is the value [rand()] returns
    at iteration [x]. C's [%] truncates, as [Z.rem] does. *)
Fixpoint init_loop (rand : nat -> Z) (x : nat) (n : nat) (buffer : list Z) : option (list Z) :=
  match n with
  | O => Some buffer
  | S n' =>
      match store buffer (Z.of_nat x) (65 + Z.rem (rand x) 26) with
      | None => None
      | Some b => init_loop rand (S x) n' b
      end
  end.

(** [init_string(buffer, len)]: the loop runs while [x < len], then
    [buffer[len-1] = 0]. *)
Definition init_string (rand : nat -> Z) (buffer : list Z) (len : Z) : option (list Z) :=
  match init_loop rand 0 (Z.to_nat len) buffer with
  | None => None
  | Some b => store b (len - 1) 0
  end.

(** [memcmp(a, b, n)] on two arrays; reading past either is [None]. *)
Fixpoint memcmp (a b : list Z) (n : nat) {struct n} : option Z :=
  match n with
  | O => Some 0
  | S n' =>
      match a, b with
      | x :: a', y :: b' => if Z.eqb x y then memcmp a' b' n' else Some (x - y)
      | _, _ => None
      end
  end.

(** Unity's [TEST_ASSERT_EQUAL_STRING(expected, actual)]:
    [for (i = 0; expected[i] || actual[i]; i++)
       if (expected[i] != actual[i]) fail;]
    on two arrays; reading past either is [None]. *)
Fixpoint unity_equal_string (expected actual : list Z) : option bool :=
  match expected, actual with
  | e :: es, a :: as' =>
      if Z.eqb e 0 && Z.eqb a 0 then Some true
      else if negb (Z.eqb e a) then Some false
      else unity_equal_string es as'
  | _, _ => None
  end.

(** The three checks of [flash_WR] once [program] and [read] returned
    [BD_ERROR_OK]: [memcmp(test_string, read_string, size_of_data) == 0],
    [TEST_ASSERT_EQUAL_STRING(test_string, read_string)] and
    [TEST_ASSERT_EQUAL_STRING(read_string, test_string)]. *)
Definition flash_WR_checks (test_string read_string : list Z) (size_of_data : nat)
  : option (bool * bool * bool) :=
  match memcmp test_string read_string size_of_data,
        unity_equal_string test_string read_string,
        unity_equal_string read_string test_string with
  | Some d, Some s1, Some s2 => Some (Z.eqb d 0, s1, s2)
  | _, _, _ => None
  end.

End EEPROMTest.

(** ** The SD card test's string *)
Module SDTest.
Import EEPROMTest.
Open Scope Z_scope.

(** [#define SD_TEST_STRING_MAX 100] *)
Definition SD_TEST_STRING_MAX : nat := 100.

(** [char SD_TEST_STRING[SD_TEST_STRING_MAX] = {0};] at start-up. *)
Definition SD_TEST_STRING_init : list Z := repeat 0 SD_TEST_STRING_MAX.

(** [init_string()] on the global [SD_TEST_STRING], which holds what the
    previous call left ([SD_TEST_STRING_init] before the first call): the
    loop runs for [x < SD_TEST_STRING_MAX-1], then
    [SD_TEST_STRING[SD_TEST_STRING_MAX-1] = 0]. *)
Definition init_string (rand : nat -> Z) (SD_TEST_STRING : list Z) : option (list Z) :=
  match init_loop rand 0 (SD_TEST_STRING_MAX - 1) SD_TEST_STRING with
  | None => None
  | Some b => store b (Z.of_nat SD_TEST_STRING_MAX - 1) 0
  end.

End SDTest.

(* ================================================================== *)
(** * Proofs *)

(* ------------------------------------------------------------------ *)
(** ** Host verification channel *)

Module GreenteaFacts.
Import Greentea.
Open Scope string_scope.

Lemma nat_of_ascii_inj a b : nat_of_ascii a = nat_of_ascii b -> a = b.
Proof.
  intros H. rewrite <- (ascii_nat_embedding a), <- (ascii_nat_embedding b).
  now rewrite H.
Qed.

Lemma substring_S_cons n c s :
  substring 0 (S n) (String c s) = String c (substring 0 n s).
Proof. reflexivity. Qed.

Lemma no_nul_cons c s : no_nul (String c s) -> c <> zero /\ no_nul s.
Proof.
  unfold no_nul; cbn [no_nulb]. intros [H1 H2]%andb_prop. split; [|exact H2].
  apply negb_true_iff, Ascii.eqb_neq in H1. exact H1.
Qed.

Lemma no_nul_substring n s : no_nul s -> no_nul (substring 0 n s).
Proof.
  revert s; induction n as [|n IH]; intros s Hs; [now destruct s|].
  destruct s as [|c s]; [exact Hs|].
  pose proof (no_nul_cons c s Hs) as [Hc Hs'].
  unfold no_nul in *; rewrite substring_S_cons; cbn [no_nulb].
  rewrite (proj2 (Ascii.eqb_neq c zero) Hc). cbn. now apply IH.
Qed.

Lemma substring_idem n s : substring 0 n (substring 0 n s) = substring 0 n s.
Proof.
  revert s; induction n as [|n IH]; intros s; [now destruct s|].
  destruct s as [|c s]; simpl; [reflexivity|]. now rewrite IH.
Qed.

Lemma substring_full n s : String.length s <= n -> substring 0 n s = s.
Proof.
  revert s; induction n as [|n IH]; intros s Hl.
  - destruct s; simpl in *; [reflexivity|lia].
  - destruct s as [|c s]; simpl in *; [reflexivity|].
    rewrite IH; [reflexivity|lia].
Qed.

Lemma substring_zero s : substring 0 0 s = EmptyString.
Proof. now destruct s. Qed.

Lemma substring_S_empty n s : substring 0 (S n) s = EmptyString -> s = EmptyString.
Proof. destruct s; [reflexivity|discriminate]. Qed.

(** [strncmp n] reads at most the first [n] characters of each side. *)
Lemma strncmp_prefix_l n s1 s1' s2 :
  substring 0 n s1 = substring 0 n s1' -> strncmp n s1 s2 = strncmp n s1' s2.
Proof.
  revert s1 s1' s2; induction n as [|n IH]; intros s1 s1' s2 H; [reflexivity|].
  destruct s1 as [|c1 t1], s1' as [|c1' t1']; simpl in H; try discriminate;
    [reflexivity|].
  injection H as -> H. simpl.
  destruct (negb _); [reflexivity|]. destruct (Ascii.eqb c1' zero); [reflexivity|].
  now apply IH.
Qed.

Lemma strncmp_sym_zero n s1 s2 : strncmp n s1 s2 = 0%Z -> strncmp n s2 s1 = 0%Z.
Proof.
  revert s1 s2; induction n as [|n IH]; intros s1 s2 H; [reflexivity|].
  simpl in *. rewrite Ascii.eqb_sym.
  destruct (Ascii.eqb_spec (char_at s1) (char_at s2)) as [E|E]; simpl in *.
  - rewrite <- E. destruct (Ascii.eqb (char_at s1) zero); [reflexivity|]. now apply IH.
  - exfalso. apply E, nat_of_ascii_inj. lia.
Qed.

Lemma strncmp_prefix_r n s1 s2 s2' :
  substring 0 n s2 = substring 0 n s2' -> strncmp n s1 s2 = 0%Z -> strncmp n s1 s2' = 0%Z.
Proof.
  intros H E. apply strncmp_sym_zero. rewrite <- (strncmp_prefix_l n s2 s2' s1 H).
  now apply strncmp_sym_zero.
Qed.

(** Agreement on the first [n] characters makes [strncmp n] report equal. *)
Lemma strncmp_agree n s1 s2 :
  substring 0 n s1 = substring 0 n s2 -> strncmp n s1 s2 = 0%Z.
Proof.
  revert s1 s2; induction n as [|n IH]; intros s1 s2 H; [reflexivity|].
  destruct s1 as [|c1 t1], s2 as [|c2 t2]; simpl in H; try discriminate; [reflexivity|].
  injection H as -> H. simpl. rewrite Ascii.eqb_refl. simpl.
  destruct (Ascii.eqb c2 zero); [reflexivity|]. now apply IH.
Qed.

Lemma strncmp_S n s1 s2 :
  strncmp (S n) s1 s2 =
  if negb (Ascii.eqb (char_at s1) (char_at s2))
  then (Z.of_nat (nat_of_ascii (char_at s1)) - Z.of_nat (nat_of_ascii (char_at s2)))%Z
  else if Ascii.eqb (char_at s1) zero then 0%Z
  else strncmp n (str_tail s1) (str_tail s2).
Proof. reflexivity. Qed.

Lemma unity_S e a n :
  unity_string_len_equal e a (S n) =
  if Ascii.eqb (char_at e) zero && Ascii.eqb (char_at a) zero then true
  else if negb (Ascii.eqb (char_at e) (char_at a)) then false
  else unity_string_len_equal (str_tail e) (str_tail a) n.
Proof. reflexivity. Qed.

(** On C strings the converse holds. *)
Lemma strncmp_zero_agree n s1 s2 :
  no_nul s1 -> no_nul s2 -> strncmp n s1 s2 = 0%Z -> substring 0 n s1 = substring 0 n s2.
Proof.
  revert s1 s2; induction n as [|n IH]; intros s1 s2 N1 N2 H; [now rewrite !substring_zero|].
  rewrite strncmp_S in H.
  destruct s1 as [|c1 t1], s2 as [|c2 t2]; cbn [char_at str_tail] in H; [reflexivity| | |].
  - apply no_nul_cons in N2 as [C2 _].
    destruct (Ascii.eqb_spec zero c2) as [E|E]; [congruence|]. cbn [negb] in H.
    exfalso. apply C2, nat_of_ascii_inj. change (nat_of_ascii zero) with 0 in *. lia.
  - apply no_nul_cons in N1 as [C1 _].
    destruct (Ascii.eqb_spec c1 zero) as [E|E]; [congruence|]. cbn [negb] in H.
    exfalso. apply C1, nat_of_ascii_inj. change (nat_of_ascii zero) with 0 in *. lia.
  - apply no_nul_cons in N1 as [C1 N1], N2 as [C2 N2].
    destruct (Ascii.eqb_spec c1 c2) as [E|E]; cbn [negb] in H.
    + subst c2. apply Ascii.eqb_neq in C1. rewrite C1 in H.
      rewrite !substring_S_cons. f_equal. now apply IH.
    + exfalso. apply E, nat_of_ascii_inj. lia.
Qed.

(** The same two facts for Unity's bounded string assertion. *)
Lemma unity_prefix n e e' a a' :
  substring 0 n e = substring 0 n e' -> substring 0 n a = substring 0 n a' ->
  unity_string_len_equal e a n = unity_string_len_equal e' a' n.
Proof.
  revert e e' a a'; induction n as [|n IH]; intros e e' a a' He Ha; [reflexivity|].
  destruct e as [|ce te], e' as [|ce' te']; simpl in He; try discriminate;
  destruct a as [|ca ta], a' as [|ca' ta']; simpl in Ha; try discriminate;
  try (injection He as -> He); try (injection Ha as -> Ha); simpl;
  repeat match goal with |- context [if ?b then _ else _] => destruct b end;
  try reflexivity; now apply IH.
Qed.

Lemma unity_agree n e a :
  substring 0 n e = substring 0 n a -> unity_string_len_equal e a n = true.
Proof.
  revert e a; induction n as [|n IH]; intros e a H; [reflexivity|].
  destruct e as [|c1 t1], a as [|c2 t2]; simpl in H; try discriminate; [reflexivity|].
  injection H as -> H. simpl. rewrite Ascii.eqb_refl. simpl.
  destruct (Ascii.eqb c2 zero); [reflexivity|]. now apply IH.
Qed.

Lemma unity_true_agree n e a :
  no_nul e -> no_nul a -> unity_string_len_equal e a n = true ->
  substring 0 n e = substring 0 n a.
Proof.
  revert e a; induction n as [|n IH]; intros e a Ne Na H; [now rewrite !substring_zero|].
  rewrite unity_S in H.
  destruct e as [|c1 t1], a as [|c2 t2]; cbn [char_at str_tail] in H; [reflexivity| | |].
  - apply no_nul_cons in Na as [C2 _].
    rewrite (proj2 (Ascii.eqb_neq c2 zero)), andb_false_r in H by exact C2.
    destruct (Ascii.eqb_spec zero c2) as [E|E]; [congruence|]. discriminate.
  - apply no_nul_cons in Ne as [C1 _].
    rewrite (proj2 (Ascii.eqb_neq c1 zero)) in H by exact C1. cbn [andb] in H.
    destruct (Ascii.eqb_spec c1 zero) as [E|E]; [congruence|]. discriminate.
  - apply no_nul_cons in Ne as [C1 Ne], Na as [C2 Na].
    rewrite (proj2 (Ascii.eqb_neq c1 zero)) in H by exact C1. cbn [andb] in H.
    destruct (Ascii.eqb_spec c1 c2) as [E|E]; cbn [negb] in H; [|discriminate].
    subst c2. rewrite !substring_S_cons. f_equal. now apply IH.
Qed.

Lemma loop_key_match key m :
  key_matches key m = true ->
  strncmp (receivedKey_size - 1) key (substring 0 (receivedKey_size - 1) (kv_key m)) = 0%Z.
Proof.
  intros Hm. apply String.eqb_eq in Hm. unfold cmp_bound in *.
  apply strncmp_agree. rewrite substring_idem. now symmetry.
Qed.

Lemma loop_key_nomatch key m :
  no_nul key -> no_nul (kv_key m) ->
  key_matches key m = false ->
  strncmp (receivedKey_size - 1) key (substring 0 (receivedKey_size - 1) (kv_key m)) <> 0%Z.
Proof.
  intros Nk Nm Hm E. apply String.eqb_neq in Hm. apply Hm. unfold cmp_bound in *.
  apply strncmp_zero_agree in E; [|exact Nk|now apply no_nul_substring].
  rewrite substring_idem in E. now symmetry.
Qed.

Lemma loop_value_check expectedVal m :
  no_nul expectedVal -> no_nul (kv_value m) ->
  unity_string_len_equal expectedVal (received_value m) (receivedKey_size - 1) =
  String.eqb (substring 0 cmp_bound expectedVal) (received_value m).
Proof.
  intros Ne Nv. unfold received_value, greentea_parse_kv, cmp_bound; cbn [snd].
  change receivedValue_size with receivedKey_size.
  destruct (String.eqb_spec (substring 0 (receivedKey_size - 1) expectedVal)
              (substring 0 (receivedKey_size - 1) (kv_value m))) as [E|E].
  - apply unity_agree. rewrite E. symmetry. apply substring_idem.
  - destruct (unity_string_len_equal _ _ _) eqn:U; [|reflexivity].
    exfalso. apply E. apply unity_true_agree in U;
      [|exact Ne|now apply no_nul_substring].
    rewrite U. apply substring_idem.
Qed.

(** The drain loop, under the C-string assumptions, is [first_match]
    followed by one bounded value check. *)
Lemma assert_next_first_match key expectedVal incoming :
  no_nul key -> no_nul expectedVal ->
  c_strings incoming ->
  assert_next_message_from_host key expectedVal incoming =
  match first_match key incoming with
  | None => None
  | Some (m, rest) =>
      Some ((if String.eqb (substring 0 cmp_bound expectedVal) (received_value m)
             then Pass else AssertFail), rest)
  end.
Proof.
  intros Nk Ne HN. induction incoming as [|m inc IH]; [reflexivity|].
  unfold c_strings in HN; cbn [forallb] in HN.
  apply andb_prop in HN as [[Nmk Nmv]%andb_prop HN]. specialize (IH HN).
  cbn [assert_next_message_from_host first_match].
  destruct (key_matches key m) eqn:Hm.
  - unfold greentea_parse_kv at 1.
    rewrite (loop_key_match key m Hm). cbn [Z.eqb].
    rewrite <- (loop_value_check expectedVal m Ne Nmv). reflexivity.
  - unfold greentea_parse_kv at 1.
    destruct (Z.eqb_spec (strncmp (receivedKey_size - 1) key
                (substring 0 (receivedKey_size - 1) (kv_key m))) 0) as [E|E].
    + exfalso. exact (loop_key_nomatch key m Nk Nmk Hm E).
    + exact IH.
Qed.

End GreenteaFacts.

Module HostChannelClaims.
Import Greentea GreenteaFacts.
Open Scope string_scope.

(** C4 (amended): [assert_next_message_from_host key expectedVal] (the
    spec's [awaitResponse]) reads and discards every message whose key
    differs from [key] within their first 63 characters, leaves at the
    first message whose key agrees with [key] on those 63 characters, and
    decides on that message's value, compared over 63 characters; when no
    message is accepted, it has not left the loop however many messages
    were read ([None]: still blocked). Keys and values are C strings. *)
Theorem assert_next_message_from_host_drains key expectedVal incoming :
  no_nul key -> no_nul expectedVal -> c_strings incoming ->
  assert_next_message_from_host key expectedVal incoming =
  match first_match key incoming with
  | None => None
  | Some (m, rest) =>
      Some ((if String.eqb (substring 0 cmp_bound expectedVal) (received_value m)
             then Pass else AssertFail), rest)
  end.
Proof.
  intros Nk Ne Ni. exact (assert_next_first_match key expectedVal incoming Nk Ne Ni).
Qed.

Lemma assert_next_message_from_host_drains_witness :
  assert_next_message_from_host "verify_standard_message" "pass"
    [mk_kv "print_spi_data" "complete"; mk_kv "verify_standard_message" "pass";
     mk_kv "verify_standard_message" "fail"] =
  Some (Pass, [mk_kv "verify_standard_message" "fail"]).
Proof.
  rewrite (assert_next_message_from_host_drains "verify_standard_message" "pass" _);
    [reflexivity | reflexivity | reflexivity | reflexivity].
Defined.

(** C4, as stated, fails: a message whose key differs from the requested
    one only in its 64th character is not discarded; the loop leaves at it,
    fails the value check, and the message with the requested key stays
    unread. *)
Lemma assert_next_message_from_host_long_key_counterexample :
  let key := repeat_char 63 "k" ++ "1" in
  let other := repeat_char 63 "k" ++ "2" in
  other <> key /\
  assert_next_message_from_host key "pass" [mk_kv other "fail"; mk_kv key "pass"] =
    Some (AssertFail, [mk_kv key "pass"]).
Proof.
  cbv zeta. split.
  - intros E. apply String.eqb_eq in E. vm_compute in E. discriminate.
  - vm_compute. reflexivity.
Qed.

(** C5 (amended): [host_request key value expectedVal] sends its message
    and then waits for the first response whose key agrees with [key] on
    its first 63 characters (C4); it reports a
    failed test assertion ([AssertFail], the only failure it has) exactly
    when the response value differs from [expectedVal] on its first 63
    characters. For expected values of at most 63 characters (every
    literal of the test) that is exactly when the two values differ. *)
Theorem host_request_verdict key value expectedVal ch :
  no_nul key -> no_nul expectedVal ->
  c_strings (incoming ch) ->
  host_request key value expectedVal ch =
  match first_match key (incoming ch) with
  | None => None
  | Some (m, rest) =>
      Some ((if String.eqb (substring 0 cmp_bound expectedVal) (received_value m)
             then Pass else AssertFail),
            mk_channel (sent ch ++ [mk_kv key value]) rest)
  end.
Proof.
  intros Nk Ne Ni. unfold host_request, greentea_send_kv; cbn [incoming sent].
  rewrite assert_next_first_match by assumption.
  destruct (first_match key (incoming ch)) as [[m rest]|]; reflexivity.
Qed.

Lemma host_request_verdict_witness :
  host_request "verify_standard_message" "please" "pass"
    (mk_channel [] [mk_kv "verify_standard_message" "fail"]) =
  Some (AssertFail, mk_channel [mk_kv "verify_standard_message" "please"] []).
Proof.
  rewrite (host_request_verdict "verify_standard_message" "please" "pass" _);
    [reflexivity | reflexivity | reflexivity | reflexivity].
Defined.

(** C5, as stated, fails: an expected value of 64 characters and a host
    reply that differs from it only in its 64th character pass. *)
Lemma host_request_long_expected_counterexample :
  let expectedVal := repeat_char 63 "a" ++ "x" in
  let reply := repeat_char 63 "a" ++ "y" in
  reply <> expectedVal /\
  received_value (mk_kv "verify_standard_message" reply) <> expectedVal /\
  host_request "verify_standard_message" "please" expectedVal
    (mk_channel [] [mk_kv "verify_standard_message" reply]) =
  Some (Pass, mk_channel [mk_kv "verify_standard_message" "please"] []).
Proof.
  cbv zeta. split; [|split].
  - intros E. apply String.eqb_eq in E. vm_compute in E. discriminate.
  - intros E. apply String.eqb_eq in E. vm_compute in E. discriminate.
  - vm_compute. reflexivity.
Qed.

(** C10: both comparisons of [assert_next_message_from_host] are bounded
    by [sizeof(receivedKey) - 1 = 63] characters: keys, and expected
    values, that agree on their first 63 characters compare equal and
    make the loop behave the same on every input. *)
Theorem assert_next_message_from_host_bounded key1 key2 e1 e2 incoming :
  substring 0 63 key1 = substring 0 63 key2 ->
  substring 0 63 e1 = substring 0 63 e2 ->
  cmp_bound = 63 /\
  strncmp cmp_bound key1 key2 = 0%Z /\
  unity_string_len_equal e1 e2 cmp_bound = true /\
  assert_next_message_from_host key1 e1 incoming =
  assert_next_message_from_host key2 e2 incoming.
Proof.
  intros Hk He. split; [reflexivity|]. split; [now apply strncmp_agree|].
  split; [now apply unity_agree|].
  induction incoming as [|m inc IH]; [reflexivity|].
  cbn [assert_next_message_from_host]. unfold greentea_parse_kv.
  rewrite (strncmp_prefix_l _ key1 key2 _ Hk).
  rewrite (unity_prefix _ e1 e2 _ _ He eq_refl).
  destruct (Z.eqb _ _); [reflexivity|exact IH].
Qed.

Lemma assert_next_message_from_host_bounded_witness :
  let k1 := repeat_char 63 "k" ++ "1" in
  let k2 := repeat_char 63 "k" ++ "2" in
  k1 <> k2 /\
  assert_next_message_from_host k1 "pass" [mk_kv k2 "pass"] =
  assert_next_message_from_host k2 "pass" [mk_kv k2 "pass"].
Proof.
  cbv zeta. split.
  - intros E. apply String.eqb_eq in E. vm_compute in E. discriminate.
  - apply (assert_next_message_from_host_bounded _ _ "pass" "pass" _);
      vm_compute; reflexivity.
Defined.

End HostChannelClaims.

(* ------------------------------------------------------------------ *)
(** ** Words on the wire *)

Module WireFacts.
Import Wire.
Open Scope Z_scope.

Lemma length_clock_word bits w : length (clock_word bits w) = bits.
Proof. unfold clock_word. now rewrite length_map, length_seq. Qed.

(** A 16-bit word goes out as its high byte, then its low byte. *)
Lemma clock_word_16 w : clock_word 16 w = clock_word 8 (Z.shiftr w 8) ++ clock_word 8 w.
Proof.
  unfold clock_word. cbn -[Z.testbit Z.shiftr].
  rewrite !Z.shiftr_spec by lia. reflexivity.
Qed.

Lemma clock_word_8_low w : clock_word 8 w = clock_word 8 (Z.land w 255).
Proof.
  unfold clock_word. cbn -[Z.testbit Z.land].
  rewrite !Z.land_spec. cbn -[Z.testbit]. now rewrite !andb_true_r.
Qed.

Lemma clock_word_8_table :
  forallb (fun n => Z.eqb (bits_to_Z (clock_word 8 (Z.of_nat n))) (Z.of_nat n))
    (seq 0 256) = true.
Proof. vm_compute. reflexivity. Qed.

Lemma bits_to_Z_clock_word_8 w : bits_to_Z (clock_word 8 w) = Z.land w 255.
Proof.
  rewrite clock_word_8_low.
  assert (B : 0 <= Z.land w 255 < 256).
  { change 255 with (Z.ones 8). rewrite Z.land_ones by lia.
    pose proof (Z.mod_pos_bound w (2 ^ 8)) as H. cbn in H |- *. lia. }
  set (y := Z.land w 255) in *.
  pose proof (proj1 (forallb_forall _ _) clock_word_8_table (Z.to_nat y)) as H.
  cbv beta in H. rewrite Z2Nat.id in H by lia. apply Z.eqb_eq, H, in_seq. lia.
Qed.

Lemma group8_app fuel c rest :
  length c = 8%nat -> group8 (S fuel) (c ++ rest) = bits_to_Z c :: group8 fuel rest.
Proof.
  intros Hc.
  replace (group8 (S fuel) (c ++ rest))
    with (bits_to_Z (firstn 8 (c ++ rest)) :: group8 fuel (skipn 8 (c ++ rest)))
    by (destruct c; [discriminate|reflexivity]).
  rewrite firstn_app, skipn_app, Hc, Nat.sub_diag, firstn_all2, skipn_all2 by lia.
  cbn [firstn skipn app]. now rewrite app_nil_r.
Qed.

Lemma length_concat_clock8 xs : length (concat (map (clock_word 8) xs)) = (8 * length xs)%nat.
Proof.
  induction xs as [|x xs IH]; [reflexivity|].
  cbn [map concat length]. rewrite length_app, length_clock_word, IH. lia.
Qed.

Lemma group8_bytes xs fuel :
  (length xs <= fuel)%nat ->
  group8 fuel (concat (map (clock_word 8) xs)) = map (fun x => Z.land x 255) xs.
Proof.
  revert fuel; induction xs as [|x xs IH]; intros fuel Hf.
  - destruct fuel; reflexivity.
  - destruct fuel as [|fuel]; [cbn in Hf; lia|].
    cbn [map concat]. rewrite group8_app by apply length_clock_word.
    rewrite bits_to_Z_clock_word_8, IH by (cbn in Hf; lia). reflexivity.
Qed.

Lemma capture_bytes xs :
  capture (concat (map (clock_word 8) xs)) = map (fun x => Z.land x 255) xs.
Proof. unfold capture. apply group8_bytes. rewrite length_concat_clock8. lia. Qed.

Lemma concat_clock_word_16 ws :
  concat (map (clock_word 16) ws) =
  concat (map (clock_word 8) (flat_map (fun w => [Z.shiftr w 8; w]) ws)).
Proof.
  induction ws as [|w ws IH]; [reflexivity|].
  cbn [map concat flat_map]. rewrite IH, clock_word_16. cbn [app map concat].
  now rewrite <- app_assoc.
Qed.

Lemma wire_fold_spi_write words b :
  wire (fold_left (fun b w => spi_write w b) words b) =
  wire b ++ concat (map (clock_word (word_bits b)) words).
Proof.
  revert b; induction words as [|w words IH]; intros b; cbn [fold_left map concat].
  - now rewrite app_nil_r.
  - rewrite IH. cbn [wire word_bits spi_write]. now rewrite app_assoc.
Qed.

Lemma wire_write_single_word bits words b :
  wire (write_single_word bits words b) = wire b ++ concat (map (clock_word bits) words).
Proof. unfold write_single_word. now rewrite wire_fold_spi_write. Qed.

End WireFacts.

Module WireClaims.
Import Wire WireFacts.
Open Scope Z_scope.

(** C6: 16-bit words are clocked out most-significant byte first, so
    [write_single_word_uint16] ({0x0102, 0x0408} at 16 bits) leaves the
    same recorded bytes {0x01, 0x02, 0x04, 0x08} as
    [write_single_word_uint8] (the four bytes at 8 bits), whatever width
    the bus had before, and the host's [verify_standard_message] answers
    [pass] for both. *)
Theorem write_single_word_width_equivalence bits0 :
  (forall ws, capture (wire (write_single_word 16 ws (logging_started bits0))) =
              flat_map (fun w => [Z.land (Z.shiftr w 8) 255; Z.land w 255]) ws) /\
  capture (wire (write_single_word_uint16 (logging_started bits0))) = standardMessageBytes /\
  capture (wire (write_single_word_uint8 (logging_started bits0))) = standardMessageBytes /\
  host_verify_standard_message
    (capture (wire (write_single_word_uint16 (logging_started bits0)))) = "pass"%string /\
  host_verify_standard_message
    (capture (wire (write_single_word_uint8 (logging_started bits0)))) = "pass"%string.
Proof.
  assert (G : forall ws, capture (wire (write_single_word 16 ws (logging_started bits0))) =
              flat_map (fun w => [Z.land (Z.shiftr w 8) 255; Z.land w 255]) ws).
  { intros ws. rewrite wire_write_single_word. unfold logging_started; cbn [wire app].
    rewrite concat_clock_word_16, capture_bytes.
    induction ws as [|w ws IH]; [reflexivity|]. cbn [flat_map map app].
    now rewrite <- IH. }
  assert (E16 : capture (wire (write_single_word_uint16 (logging_started bits0))) =
                standardMessageBytes) by (unfold write_single_word_uint16; now rewrite G).
  assert (E8 : capture (wire (write_single_word_uint8 (logging_started bits0))) =
                standardMessageBytes).
  { unfold write_single_word_uint8. rewrite wire_write_single_word.
    unfold logging_started; cbn [wire app]. rewrite capture_bytes.
    reflexivity. }
  split; [exact G|]. split; [exact E16|]. split; [exact E8|].
  rewrite E16, E8. split; reflexivity.
Qed.

End WireClaims.

(* ------------------------------------------------------------------ *)
(** ** Several SPI objects on one bus *)

Module HandleClaims.
Import Wire Handles.

(** C7: in [use_multiple_spi_objects] and in
    [async_use_multiple_spi_objects] (for every DMA policy), the four
    one-byte transfers made through [spi], [spi2], [spi3] and [spi] again,
    with [spi2] and [spi3] deleted in between, leave exactly the standard
    message on the bus, in order, whatever configuration [spi] had
    before; the host's verification answers [pass]. *)
Theorem use_multiple_spi_objects_standard_message cfg0 dmaUsage :
  (exists st, run use_multiple_spi_objects (logging_started_with cfg0) = Some st /\
              capture (mosi st) = standardMessageBytes /\
              host_verify_standard_message (capture (mosi st)) = "pass"%string) /\
  (exists st, run (async_use_multiple_spi_objects dmaUsage) (logging_started_with cfg0) = Some st /\
              capture (mosi st) = standardMessageBytes /\
              host_verify_standard_message (capture (mosi st)) = "pass"%string).
Proof.
  destruct cfg0 as [bits f d].
  split; eexists; (split; [reflexivity|]); split; vm_compute; reflexivity.
Qed.

End HandleClaims.

(* ------------------------------------------------------------------ *)
(** ** Asynchronous transfer queue *)

Module EngineFacts.
Import Engine.

Definition head_ids (q : list transfer) : list nat :=
  match q with [] => [] | t :: _ => [xid t] end.

Definition with_got (t : transfer) (g : list Z) : transfer :=
  mk_transfer (xid t) (tx_buf t) (rx_buf t) g (event_mask t).

(** What every reachable state satisfies. *)
Record inv (e : engine) : Prop := {
  inv_ids : map rid (retired e) ++ map xid (queue e) = seq 0 (next_id e);
  inv_dispatched : dispatched e = map rid (retired e) ++ head_ids (queue e);
  inv_in_flight : Forall (fun t => 0 < xfer_len t /\ clocked t < xfer_len t)%nat (queue e);
  inv_waiting : Forall (fun t => got t = []) (tl (queue e)) }.

Lemma inv_init : inv init.
Proof. split; cbn; auto. Qed.

Lemma valid_descriptor_len tx rx n mask :
  valid_descriptor tx rx = true -> (0 < xfer_len (mk_transfer n tx rx [] mask))%nat.
Proof.
  unfold xfer_len, buf_len; cbn [tx_buf rx_buf].
  destruct tx as [[|x tx]|], rx as [[|y rx]|]; cbn; intros H; try discriminate; lia.
Qed.

Lemma inv_enqueue e tx rx mask n e' :
  inv e -> enqueue tx rx mask e = inl (n, e') -> inv e'.
Proof.
  intros [I1 I2 I3 I4] H. unfold enqueue in H.
  destruct (valid_descriptor tx rx) eqn:V; [|discriminate].
  injection H as <- <-. split; cbn [queue retired dispatched next_id].
  - rewrite map_app, app_assoc, I1, seq_S. reflexivity.
  - destruct (queue e) as [|t q] eqn:Q; cbn [app head_ids] in *.
    + rewrite I2, app_nil_r. reflexivity.
    + exact I2.
  - apply Forall_app. split; [exact I3|]. constructor; [|constructor].
    unfold clocked; cbn. split; [|]; apply (valid_descriptor_len _ _ _ mask V).
  - destruct (queue e) as [|t q] eqn:Q; cbn [app tl] in *; [constructor|].
    apply Forall_app. split; [exact I4|]. constructor; [reflexivity|constructor].
Qed.

Lemma xfer_len_with_got t g : xfer_len (with_got t g) = xfer_len t.
Proof. reflexivity. Qed.

Lemma inv_advance e t rest r :
  inv e -> queue e = t :: rest -> rid r = xid t -> inv (advance rest r e).
Proof.
  intros [I1 I2 I3 I4] Q R. rewrite Q in I1, I2, I3, I4.
  split; unfold advance; cbn [queue retired dispatched next_id].
  - rewrite map_app, <- app_assoc, <- I1. cbn. now rewrite R.
  - rewrite I2, map_app. cbn [map head_ids]. rewrite R.
    destruct rest; cbn [head_ids]; [now rewrite app_nil_r|]. now rewrite <- app_assoc.
  - now inversion I3.
  - cbn [tl] in I4. destruct rest as [|t' rest]; cbn [tl]; [constructor|].
    now inversion I4.
Qed.

Lemma inv_clock e m : inv e -> inv (clock m e).
Proof.
  intros I. unfold clock. destruct (queue e) as [|t rest] eqn:Q; [exact I|].
  destruct (Nat.eqb _ _) eqn:L.
  - apply (inv_advance e t rest); [exact I|exact Q|reflexivity].
  - destruct I as [I1 I2 I3 I4]. rewrite Q in I1, I2, I3, I4.
    apply Nat.eqb_neq in L. unfold clocked in L; cbn [got] in L.
    rewrite length_app in L. cbn [length] in L.
    inversion I3 as [|? ? [Hl Hc] I3']; subst.
    split; cbn [queue retired dispatched next_id].
    + exact I1.
    + exact I2.
    + constructor; [|exact I3']. unfold clocked in *; cbn [got].
      rewrite length_app; cbn [length]. unfold xfer_len in *; cbn [tx_buf rx_buf] in *. lia.
    + exact I4.
Qed.

Lemma inv_abort e : inv e -> inv (abort_transfer e).
Proof.
  intros I. unfold abort_transfer. destruct (queue e) as [|t rest] eqn:Q; [exact I|].
  apply (inv_advance e t rest); [exact I|exact Q|reflexivity].
Qed.

Lemma inv_step ev e : inv e -> inv (engine_step ev e).
Proof.
  intros I. destruct ev as [tx rx mask|m|]; cbn [engine_step].
  - destruct (enqueue tx rx mask e) as [[n e']|err] eqn:H; [|exact I].
    exact (inv_enqueue e tx rx mask n e' I H).
  - now apply inv_clock.
  - now apply inv_abort.
Qed.

Lemma inv_run evs e : inv e -> inv (run_events evs e).
Proof.
  revert e; induction evs as [|ev evs IH]; intros e I; [exact I|].
  cbn [run_events fold_left]. apply IH, inv_step, I.
Qed.

Lemma inv_reachable evs : inv (run_events evs init).
Proof. apply inv_run, inv_init. Qed.

Lemma with_got_self t : with_got t (got t) = t.
Proof. now destruct t. Qed.

Definition completion_event (mask : Z) : option Z :=
  if Z.eqb (Z.land SPI_EVENT_COMPLETE mask) 0 then None
  else Some (Z.land SPI_EVENT_COMPLETE mask).

Definition completion_record (t : transfer) (g : list Z) : retired_transfer :=
  mk_retired (xid t) (mk_outcome true false false (length g)) (rx_contents (with_got t g))
    (completion_event (event_mask t)).

Lemma clock_words_app ms1 ms2 e :
  clock_words (ms1 ++ ms2) e = clock_words ms2 (clock_words ms1 e).
Proof. unfold clock_words. apply fold_left_app. Qed.

Lemma clock_partial e t rest m :
  queue e = t :: rest -> (S (clocked t) < xfer_len t)%nat ->
  clock m e = mk_engine (with_got t (got t ++ [m]) :: rest) (retired e) (dispatched e) (next_id e).
Proof.
  intros Q H. unfold clock. rewrite Q.
  replace (Nat.eqb _ _) with false; [reflexivity|].
  symmetry. apply Nat.eqb_neq. unfold clocked, xfer_len in *; cbn [got tx_buf rx_buf].
  rewrite length_app; cbn [length]. lia.
Qed.

Lemma clock_complete e t rest m :
  queue e = t :: rest -> S (clocked t) = xfer_len t ->
  clock m e = advance rest (completion_record t (got t ++ [m])) e.
Proof.
  intros Q H. unfold clock. rewrite Q.
  replace (Nat.eqb _ _) with true; [reflexivity|].
  symmetry. apply Nat.eqb_eq. unfold clocked, xfer_len in *; cbn [got tx_buf rx_buf].
  rewrite length_app; cbn [length]. lia.
Qed.

Lemma clock_words_partial ms e t rest :
  queue e = t :: rest -> (clocked t + length ms < xfer_len t)%nat ->
  clock_words ms e = mk_engine (with_got t (got t ++ ms) :: rest) (retired e) (dispatched e) (next_id e).
Proof.
  revert e t; induction ms as [|m ms IH]; intros e t Q H.
  - destruct e as [q r d n]; cbn in Q |- *. subst q.
    now rewrite app_nil_r, with_got_self.
  - change (clock_words (m :: ms) e) with (clock_words ms (clock m e)).
    cbn [length] in H. rewrite (clock_partial e t rest m Q) by lia.
    rewrite (IH _ (with_got t (got t ++ [m]))); [| reflexivity |].
    + unfold with_got; cbn [xid tx_buf rx_buf got event_mask retired dispatched next_id].
      now rewrite <- app_assoc.
    + unfold clocked, with_got in *; cbn [got]. rewrite length_app; cbn [length].
      unfold xfer_len in *; cbn [tx_buf rx_buf]. lia.
Qed.

Lemma clock_words_complete ms e t rest :
  queue e = t :: rest -> (clocked t + length ms = xfer_len t)%nat -> ms <> [] ->
  clock_words ms e = advance rest (completion_record t (got t ++ ms)) e.
Proof.
  intros Q H NE. destruct (exists_last NE) as [ms0 [m ->]].
  rewrite clock_words_app, length_app in *. cbn [length] in H.
  rewrite (clock_words_partial ms0 e t rest Q) by lia.
  change (clock_words [m] ?x) with (clock m x).
  rewrite (clock_complete (mk_engine (with_got t (got t ++ ms0) :: rest) (retired e)
             (dispatched e) (next_id e)) (with_got t (got t ++ ms0)) rest m eq_refl).
  - unfold advance, completion_record, with_got; cbn. now rewrite <- app_assoc.
  - unfold clocked; cbn [got with_got]. rewrite length_app, xfer_len_with_got.
    unfold clocked in H. lia.
Qed.

Lemma retired_run_no_abort evs e :
  forallb (fun ev => negb (is_abort ev)) evs = true ->
  Forall (fun r => completed (result r) = true) (retired e) ->
  Forall (fun r => completed (result r) = true) (retired (run_events evs e)).
Proof.
  revert e; induction evs as [|ev evs IH]; intros e NA C; [exact C|].
  cbn [forallb] in NA. apply andb_prop in NA as [NA1 NA].
  cbn [run_events fold_left]. apply IH; [exact NA|].
  destruct ev as [tx rx mask|m|]; cbn [engine_step]; [| |discriminate].
  - unfold enqueue. destruct (valid_descriptor tx rx); exact C.
  - unfold clock. destruct (queue e) as [|t rest]; [exact C|].
    destruct (Nat.eqb _ _); cbn; [|exact C].
    apply Forall_app. split; [exact C|]. now constructor.
Qed.

(** Words still to clock before the queue is empty. *)
Fixpoint remaining (q : list transfer) : nat :=
  match q with [] => 0 | t :: q' => (xfer_len t - clocked t) + remaining q' end.

Lemma drain q e ms :
  inv e -> queue e = q ->
  Forall (fun r => completed (result r) = true) (retired e) ->
  length ms = remaining q ->
  queue (clock_words ms e) = [] /\ next_id (clock_words ms e) = next_id e /\
  Forall (fun r => completed (result r) = true) (retired (clock_words ms e)).
Proof.
  revert e ms; induction q as [|t rest IH]; intros e ms I Q C L.
  - destruct ms; [|discriminate]. now cbn.
  - pose proof (inv_in_flight e I) as F. rewrite Q in F. inversion F as [|? ? [Hl Hc] _]; subst.
    cbn [remaining] in L.
    set (k := (xfer_len t - clocked t)%nat) in L.
    rewrite <- (firstn_skipn k ms), clock_words_app.
    assert (Lk : length (firstn k ms) = k) by (rewrite length_firstn; lia).
    rewrite (clock_words_complete (firstn k ms) e t rest Q) by
      (try lia; intros E; rewrite E in Lk; cbn in Lk; lia).
    destruct (IH (advance rest (completion_record t (got t ++ firstn k ms)) e) (skipn k ms))
      as [Q' [N' C']].
    + apply (inv_advance e t rest); [exact I|exact Q|reflexivity].
    + reflexivity.
    + unfold advance; cbn [retired]. apply Forall_app. split; [exact C|]. now constructor.
    + rewrite length_skipn. lia.
    + split; [exact Q'|]. split; [exact N'|exact C'].
Qed.

Lemma ids_prefix l1 l2 n : l1 ++ l2 = seq 0 n -> l1 = seq 0 (length l1).
Proof.
  intros H. assert (Hl : (length l1 <= n)%nat).
  { apply (f_equal (@length nat)) in H. rewrite length_app, !length_seq in H. lia. }
  assert (E : firstn (length l1) (l1 ++ l2) = l1).
  { rewrite firstn_app, Nat.sub_diag, firstn_all. cbn. apply app_nil_r. }
  rewrite H in E. set (k := length l1) in *. rewrite <- E.
  replace n with (k + (n - k))%nat by lia.
  rewrite seq_app, firstn_app, length_seq, Nat.sub_diag.
  rewrite firstn_all2 by (rewrite length_seq; lia). cbn. apply app_nil_r.
Qed.

Lemma inv_clock_words ms e : inv e -> inv (clock_words ms e).
Proof.
  revert e; induction ms as [|m ms IH]; intros e I; [exact I|].
  change (clock_words (m :: ms) e) with (clock_words ms (clock m e)).
  apply IH, inv_clock, I.
Qed.

Lemma seq_app_cons_head m x l n : seq 0 m ++ x :: l = seq 0 n -> x = m.
Proof.
  intros H. assert (Hn : (m < n)%nat).
  { apply (f_equal (@length nat)) in H. rewrite length_app, !length_seq in H. cbn in H. lia. }
  apply (f_equal (fun l => nth m l 0%nat)) in H.
  rewrite app_nth2, length_seq, Nat.sub_diag in H by (rewrite length_seq; lia).
  rewrite seq_nth in H by exact Hn. exact H.
Qed.

(** Aborting the head [a] dispatches [b] as it was enqueued; clocking its
    [xfer_len b] words then completes it. *)
Lemma abort_then_successor evs a b rest ms :
  queue (run_events evs init) = a :: b :: rest -> length ms = xfer_len b ->
  let e := run_events evs init in
  let e1 := abort_transfer e in
  got b = [] /\ queue e1 = b :: rest /\
  retired e1 = retired e ++ [mk_retired (xid a) (mk_outcome false true false (clocked a)) (rx_contents a) (Some SPI_EVENT_ABORTED)] /\
  dispatched e1 = dispatched e ++ [xid b] /\
  clock_words ms e1 = advance rest (completion_record b ms) e1.
Proof.
  intros Q L e e1. pose proof (inv_reachable evs) as I. fold e in I, Q.
  pose proof (inv_waiting e I) as W. rewrite Q in W. cbn [tl] in W.
  inversion W as [|? ? Gb _]; subst.
  pose proof (inv_in_flight e I) as F. rewrite Q in F.
  inversion F as [|? ? _ F']; subst. inversion F' as [|? ? [Lb _] _]; subst.
  assert (E1 : e1 = advance (b :: rest)
                  (mk_retired (xid a) (mk_outcome false true false (clocked a)) (rx_contents a) (Some SPI_EVENT_ABORTED)) e).
  { unfold e1, abort_transfer. now rewrite Q. }
  split; [exact Gb|]. rewrite E1. split; [reflexivity|]. split; [reflexivity|].
  split; [reflexivity|].
  rewrite (clock_words_complete ms (advance (b :: rest) _ e) b rest eq_refl).
  - now rewrite Gb.
  - unfold clocked. rewrite Gb. cbn. lia.
  - intros ->. cbn in L. lia.
Qed.

Lemma queue_and_abort_queue :
  queue (run_events (queue_and_abort_events 3) init) =
  [queue_and_abort_first 3; queue_and_abort_second].
Proof. reflexivity. Qed.

End EngineFacts.

Module EngineClaims.
Import Engine EngineFacts.

(** C1: in every reachable state, aborting an active transfer that has
    clocked at least one word (and has not completed, which would have
    retired it) retires it with [completed = false] and
    [0 < bytesTransferred < L], [L] its length; a receive buffer of length
    [L] then holds the words received so far over exactly its first
    [bytesTransferred] positions and its old contents after them. *)
Theorem abort_bounded_partial evs t rest :
  queue (run_events evs init) = t :: rest -> (1 <= clocked t)%nat ->
  retired (abort_transfer (run_events evs init)) =
    retired (run_events evs init) ++
      [mk_retired (xid t) (mk_outcome false true false (clocked t)) (rx_contents t) (Some SPI_EVENT_ABORTED)] /\
  (0 < clocked t < xfer_len t)%nat /\
  (forall r, rx_buf t = Some r -> length r = xfer_len t ->
     rx_contents t = Some (got t ++ skipn (clocked t) r)).
Proof.
  intros Q K. pose proof (inv_reachable evs) as I.
  pose proof (inv_in_flight _ I) as F. rewrite Q in F. inversion F as [|? ? [Hl Hc] _]; subst.
  split; [unfold abort_transfer; now rewrite Q|]. split; [lia|].
  intros r R Lr. unfold rx_contents. rewrite R. cbn [option_map].
  rewrite firstn_all2 by (unfold clocked in Hc; lia). reflexivity.
Qed.

Lemma abort_bounded_partial_witness :
  let evs := [EEnqueue (Some longMessage) (Some (repeat TEST_PATTERN 32)) SPI_EVENT_ALL;
              EEnqueue (Some longMessage) (Some (repeat TEST_PATTERN 32)) SPI_EVENT_ALL;
              EClock 7%Z; EClock 9%Z] in
  let t := mk_transfer 0 (Some longMessage) (Some (repeat TEST_PATTERN 32)) [7%Z; 9%Z] SPI_EVENT_ALL in
  let rest := [mk_transfer 1 (Some longMessage) (Some (repeat TEST_PATTERN 32)) [] SPI_EVENT_ALL] in
  queue (run_events evs init) = t :: rest /\ (1 <= clocked t)%nat /\
  retired (abort_transfer (run_events evs init)) =
    retired (run_events evs init) ++
      [mk_retired (xid t) (mk_outcome false true false (clocked t)) (rx_contents t) (Some SPI_EVENT_ABORTED)] /\
  (0 < clocked t < xfer_len t)%nat.
Proof.
  cbv zeta.
  assert (Q : queue (run_events
     [EEnqueue (Some longMessage) (Some (repeat TEST_PATTERN 32)) SPI_EVENT_ALL;
      EEnqueue (Some longMessage) (Some (repeat TEST_PATTERN 32)) SPI_EVENT_ALL;
      EClock 7%Z; EClock 9%Z] init) =
     mk_transfer 0 (Some longMessage) (Some (repeat TEST_PATTERN 32)) [7%Z; 9%Z] SPI_EVENT_ALL ::
     [mk_transfer 1 (Some longMessage) (Some (repeat TEST_PATTERN 32)) [] SPI_EVENT_ALL])
    by reflexivity.
  assert (K : (1 <= clocked (mk_transfer 0 (Some longMessage)
                 (Some (repeat TEST_PATTERN 32)) [7%Z; 9%Z] SPI_EVENT_ALL))%nat)
    by (vm_compute; lia).
  destruct (abort_bounded_partial _ _ _ Q K) as [R [B _]].
  split; [exact Q|]. split; [exact K|]. split; [exact R|exact B].
Defined.



(** C2: when the active transfer [a] is aborted with [b] queued behind
    it, [b] becomes the active transfer exactly as it was enqueued (no
    word of it clocked), is dispatched, and its [L_b] words then complete
    it: [completed = true], [bytesTransferred = L_b], and a receive buffer
    of length [L_b] is overwritten entirely with the received words. *)
Theorem abort_successor_completes evs a b rest ms :
  queue (run_events evs init) = a :: b :: rest -> length ms = xfer_len b ->
  let e1 := abort_transfer (run_events evs init) in
  queue e1 = b :: rest /\ got b = [] /\
  dispatched e1 = dispatched (run_events evs init) ++ [xid b] /\
  exists r, retired (clock_words ms e1) = retired e1 ++ [r] /\
            queue (clock_words ms e1) = rest /\
            rid r = xid b /\ completed (result r) = true /\ aborted (result r) = false /\
            bytesTransferred (result r) = xfer_len b /\
            (forall buf, rx_buf b = Some buf -> length buf = xfer_len b -> rx_final r = Some ms).
Proof.
  intros Q L e1.
  destruct (abort_then_successor evs a b rest ms Q L) as [Gb [Q1 [_ [D1 C]]]].
  fold e1 in Q1, D1, C.
  split; [exact Q1|]. split; [exact Gb|]. split; [exact D1|].
  exists (completion_record b ms). rewrite C. unfold advance; cbn [retired queue].
  split; [reflexivity|]. split; [reflexivity|].
  unfold completion_record; cbn [rid result completed aborted bytesTransferred rx_final].
  split; [reflexivity|]. split; [reflexivity|]. split; [reflexivity|].
  split; [exact L|].
  intros buf Rb Lb. unfold rx_contents, with_got; cbn [rx_buf got]. rewrite Rb.
  cbn [option_map]. rewrite Lb, <- L, firstn_all, skipn_all2 by lia. now rewrite app_nil_r.
Qed.

Lemma abort_successor_completes_witness :
  let ms := repeat 85%Z 32 in
  length ms = xfer_len queue_and_abort_second /\
  queue (abort_transfer (run_events (queue_and_abort_events 3) init)) = [queue_and_abort_second] /\
  queue (clock_words ms (abort_transfer (run_events (queue_and_abort_events 3) init))) = [].
Proof.
  cbv zeta.
  assert (L : length (repeat 85%Z 32) = xfer_len queue_and_abort_second) by reflexivity.
  destruct (abort_successor_completes (queue_and_abort_events 3) (queue_and_abort_first 3)
              queue_and_abort_second [] (repeat 85%Z 32) queue_and_abort_queue L)
    as [Q1 [_ [_ [r [_ [Q2 _]]]]]].
  split; [exact L|]. split; [exact Q1|exact Q2].
Defined.




(** C3: in every reachable state the transfers retired so far are the
    first ones enqueued, in enqueue order, and a transfer is dispatched
    only once every earlier one (aborted or not) is retired. Without
    aborts every retired transfer is completed, and clocking the words
    still due empties the queue with all enqueued transfers completed,
    in enqueue order. *)
Theorem queue_order evs :
  let e := run_events evs init in
  map rid (retired e) = seq 0 (length (retired e)) /\
  (forall i j, (i < j)%nat -> In j (dispatched e) -> In i (map rid (retired e))) /\
  (forallb (fun ev => negb (is_abort ev)) evs = true ->
   Forall (fun r => completed (result r) = true) (retired e) /\
   forall ms, length ms = remaining (queue e) ->
     queue (clock_words ms e) = [] /\
     map rid (retired (clock_words ms e)) = seq 0 (next_id e) /\
     Forall (fun r => completed (result r) = true) (retired (clock_words ms e))).
Proof.
  intros e. pose proof (inv_reachable evs) as I. fold e in I.
  pose proof (inv_ids e I) as I1. pose proof (inv_dispatched e I) as I2.
  assert (P : map rid (retired e) = seq 0 (length (retired e))).
  { rewrite <- (length_map rid). exact (ids_prefix _ _ _ I1). }
  split; [exact P|]. split.
  - intros i j Hij Hj. rewrite I2 in Hj. apply in_app_or in Hj as [Hj|Hj].
    + rewrite P in Hj |- *. apply in_seq in Hj. apply in_seq. lia.
    + destruct (queue e) as [|t q] eqn:Q; [destruct Hj|].
      destruct Hj as [<-|[]]. rewrite P in I1 |- *. cbn [map] in I1.
      apply seq_app_cons_head in I1. apply in_seq. lia.
  - intros NA.
    assert (C : Forall (fun r => completed (result r) = true) (retired e))
      by (apply retired_run_no_abort; [exact NA|constructor]).
    split; [exact C|]. intros ms Lms.
    destruct (drain (queue e) e ms I eq_refl C Lms) as [Q' [N' C']].
    split; [exact Q'|]. split; [|exact C'].
    pose proof (inv_ids _ (inv_clock_words ms e I)) as J.
    rewrite Q', N', app_nil_r in J. exact J.
Qed.

Lemma queue_order_witness :
  let evs := [EEnqueue (Some [1%Z]) None SPI_EVENT_ALL;
              EEnqueue (Some [2%Z; 3%Z]) None SPI_EVENT_ALL;
              EEnqueue None (Some [0%Z]) SPI_EVENT_ALL; EClock 0%Z] in
  forallb (fun ev => negb (is_abort ev)) evs = true /\
  map rid (retired (clock_words (repeat 0%Z 3) (run_events evs init))) = [0; 1; 2]%nat.
Proof.
  cbv zeta. split; [reflexivity|].
  destruct (queue_order [EEnqueue (Some [1%Z]) None SPI_EVENT_ALL;
              EEnqueue (Some [2%Z; 3%Z]) None SPI_EVENT_ALL;
              EEnqueue None (Some [0%Z]) SPI_EVENT_ALL; EClock 0%Z]) as [_ [_ H]].
  destruct (H eq_refl) as [_ D]. destruct (D (repeat 0%Z 3) eq_refl) as [_ [R _]].
  exact R.
Defined.

End EngineClaims.

Module I2CFacts.
Import I2CBus.
Open Scope Z_scope.

Lemma shiftr_clear_read_bit a : Z.shiftr (Z.land a (Z.lnot 1)) 1 = Z.shiftr a 1.
Proof.
  rewrite Z.shiftr_land. change (Z.shiftr (Z.lnot 1) 1) with (-1). apply Z.land_m1_r.
Qed.

Lemma shiftr_set_read_bit a : Z.shiftr (Z.lor a 1) 1 = Z.shiftr a 1.
Proof.
  rewrite Z.shiftr_lor. change (Z.shiftr 1 1) with 0. apply Z.lor_0_r.
Qed.

Lemma addressed_shiftr d x y : Z.shiftr x 1 = Z.shiftr y 1 -> addressed d x = addressed d y.
Proof. intros E. unfold addressed. now rewrite E. Qed.

Lemma write_byte_rejected d x :
  addressed d x = false ->
  write_byte x (start d) =
  (NACK, mk_i2c (responders d) (Data None) (trace d ++ [BStart] ++ [BByte x false])).
Proof.
  intros A. unfold write_byte, start; cbn [phase_of responders trace].
  unfold addressed in *; cbn [responders] in *. rewrite A, app_assoc. reflexivity.
Qed.

Lemma write_rejected d address data length repeated :
  addressed d address = false ->
  write address data length repeated d =
  (NACK, stop (mk_i2c (responders d) (Data None)
                 (trace d ++ [BStart] ++ [BByte (Z.land address (Z.lnot 1)) false]))).
Proof.
  intros A. unfold write.
  rewrite write_byte_rejected; [reflexivity|].
  rewrite (addressed_shiftr d _ address); [exact A|apply shiftr_clear_read_bit].
Qed.

Lemma read_rejected d address length repeated :
  addressed d address = false ->
  read address length repeated d =
  (NACK, stop (mk_i2c (responders d) (Data None)
                 (trace d ++ [BStart] ++ [BByte (Z.lor address 1) false]))).
Proof.
  intros A. unfold read.
  rewrite write_byte_rejected; [reflexivity|].
  rewrite (addressed_shiftr d _ address); [exact A|apply shiftr_set_read_bit].
Qed.

Lemma stop_ends_with_stop d : ends_with_stop (stop d).
Proof. exists (trace d). reflexivity. Qed.

End I2CFacts.

Module I2CClaims.
Import I2CBus I2CFacts.
Open Scope Z_scope.

(** C8: for a peer that does not acknowledge the address ([addressed] is
    false), every operation returns the ordinary value [NACK], distinct
    from [ACK]: a single address byte after a start condition, a write of
    any length (zero included), a read, and [transfer_and_wait] with any
    lengths. Each transaction ends with a stop condition, so the bus is
    left usable and the caller can branch on the result. *)
Theorem nack_is_result d address :
  addressed d address = false ->
  NACK <> ACK /\
  fst (write_byte address (start d)) = NACK /\
  (forall data length repeated,
     fst (write address data length repeated d) = NACK /\
     ends_with_stop (snd (write address data length repeated d))) /\
  (forall length repeated,
     fst (read address length repeated d) = NACK /\
     ends_with_stop (snd (read address length repeated d))) /\
  (forall tx tx_length rx_length,
     fst (transfer_and_wait address tx tx_length rx_length d) = NACK /\
     ends_with_stop (snd (transfer_and_wait address tx tx_length rx_length d))).
Proof.
  intros A. split; [discriminate|].
  split; [now rewrite write_byte_rejected|].
  split; [intros; rewrite write_rejected by exact A; split; [reflexivity|apply stop_ends_with_stop]|].
  split; [intros; rewrite read_rejected by exact A; split; [reflexivity|apply stop_ends_with_stop]|].
  intros tx tx_length rx_length. unfold transfer_and_wait.
  destruct (Nat.eqb rx_length 0); [|destruct (Nat.eqb tx_length 0)].
  - rewrite write_rejected by exact A. split; [reflexivity|apply stop_ends_with_stop].
  - rewrite read_rejected by exact A. split; [reflexivity|apply stop_ends_with_stop].
  - rewrite write_rejected by exact A. split; [reflexivity|apply stop_ends_with_stop].
Qed.

(** The test's incorrect address [0x20] on the EEPROM's bus, with the
    zero-length write, the two-byte write and the asynchronous transfer of
    [test_incorrect_addr_*]. *)
Lemma nack_is_result_witness :
  addressed test_bus 32 = false /\
  fst (write 32 [] 0 false test_bus) = NACK /\
  fst (write 32 [1; 3] 2 false test_bus) = NACK /\
  fst (transfer_and_wait 32 [1; 4] 2 0 test_bus) = NACK.
Proof.
  assert (A : addressed test_bus 32 = false) by reflexivity.
  destruct (nack_is_result test_bus 32 A) as [_ [_ [W [_ T]]]].
  split; [exact A|]. split; [apply (W [] 0%nat false)|].
  split; [apply (W [1; 3] 2%nat false)|]. apply (T [1; 4] 2%nat 0%nat).
Defined.

End I2CClaims.

Module SPIExtraFacts.
Import Wire WireFacts.
Open Scope Z_scope.

(** A 32-bit word goes out as its four bytes, most significant first. *)
Lemma clock_word_32 w :
  clock_word 32 w =
  clock_word 8 (Z.shiftr w 24) ++ clock_word 8 (Z.shiftr w 16) ++
  clock_word 8 (Z.shiftr w 8) ++ clock_word 8 w.
Proof.
  unfold clock_word. cbn -[Z.testbit Z.shiftr].
  rewrite !Z.shiftr_spec by lia. reflexivity.
Qed.

Lemma concat_clock_word_32 ws :
  concat (map (clock_word 32) ws) =
  concat (map (clock_word 8)
    (flat_map (fun w => [Z.shiftr w 24; Z.shiftr w 16; Z.shiftr w 8; w]) ws)).
Proof.
  induction ws as [|w ws IH]; [reflexivity|].
  cbn [map concat flat_map]. rewrite IH, clock_word_32. cbn [app map concat].
  now rewrite !app_assoc.
Qed.

End SPIExtraFacts.

Module SPIExtraClaims.
Import Wire WireFacts SPIExtraFacts Transactional Handles Reallocate.
Open Scope Z_scope.

(** Extra X1: the single-word API at 32 bits: the logic analyzer captures the four
    bytes of each word, most significant first, so
    [write_single_word_uint32] puts the standard message on the wire and
    the host's verification passes, whatever width the bus had before. *)
Theorem write_single_word_32_bytes bits0 :
  (forall ws, capture (wire (write_single_word 32 ws (logging_started bits0))) =
     flat_map (fun w => [Z.land (Z.shiftr w 24) 255; Z.land (Z.shiftr w 16) 255;
                         Z.land (Z.shiftr w 8) 255; Z.land w 255]) ws) /\
  capture (wire (write_single_word_uint32 (logging_started bits0))) = standardMessageBytes /\
  host_verify_standard_message
    (capture (wire (write_single_word_uint32 (logging_started bits0)))) = "pass"%string.
Proof.
  assert (G : forall ws, capture (wire (write_single_word 32 ws (logging_started bits0))) =
     flat_map (fun w => [Z.land (Z.shiftr w 24) 255; Z.land (Z.shiftr w 16) 255;
                         Z.land (Z.shiftr w 8) 255; Z.land w 255]) ws).
  { intros ws. rewrite wire_write_single_word. unfold logging_started; cbn [wire app].
    rewrite concat_clock_word_32, capture_bytes.
    induction ws as [|w ws IH]; [reflexivity|]. cbn [flat_map map app].
    now rewrite <- IH. }
  assert (E : capture (wire (write_single_word_uint32 (logging_started bits0))) =
              standardMessageBytes).
  { change (write_single_word_uint32 (logging_started bits0))
      with (write_single_word 32 [standardMessageUint32] (logging_started bits0)).
    now rewrite G. }
  split; [exact G|]. split; [exact E|]. rewrite E. reflexivity.
Qed.

(** Extra X2: [getMessage] yields an array exactly for word sizes 1, 2 and 4, and
    for each of them [write_transactional_tx_only<Word>] and
    [write_transactional_tx_rx<Word>], which send
    [sizeof(standardMessageBytes)] bytes of it at [8 * sizeof(Word)] bits
    per word, put the standard message on the wire, so the host's
    verification passes. *)
Theorem transactional_standard_message wordSize bits0 :
  (getMessage wordSize <> None <-> In wordSize [1; 2; 4]%nat) /\
  (getMessage wordSize <> None ->
   capture (wire (write_transactional_tx_only wordSize (logging_started bits0))) =
     standardMessageBytes /\
   capture (wire (write_transactional_tx_rx wordSize (logging_started bits0))) =
     standardMessageBytes /\
   host_verify_standard_message
     (capture (wire (write_transactional_tx_only wordSize (logging_started bits0)))) =
     "pass"%string /\
   host_verify_standard_message
     (capture (wire (write_transactional_tx_rx wordSize (logging_started bits0)))) =
     "pass"%string).
Proof.
  destruct wordSize as [|[|[|[|[|w]]]]];
    (split; [cbn; split; [intros H; try (exfalso; now apply H); tauto
                         | intros H; intuition (discriminate || lia)]|]);
    intros H; try (exfalso; now apply H);
    vm_compute; repeat split.
Qed.

(** Extra X3: [write_transactional_rx_only<Word>] asks for
    [sizeof(standardMessageBytes)] = 4 received bytes into a [char]
    array of [4 / sizeof(Word)] elements: for 16- and 32-bit words the
    store runs past the array, for 8-bit words it fills it. The [Word]
    array of [write_transactional_tx_rx<Word>] always holds the 4 bytes. *)
Theorem transactional_rx_buffers wordSize data :
  getMessage wordSize <> None -> length data = 4%nat ->
  (write_transactional_rx_only_rx wordSize data = None <-> (1 < wordSize)%nat) /\
  write_transactional_tx_rx_rx wordSize data = Some data.
Proof.
  intros H L.
  destruct wordSize as [|[|[|[|[|w]]]]]; try (exfalso; now apply H);
    unfold write_transactional_rx_only_rx, write_transactional_tx_rx_rx, store_rx,
      rx_only_buffer, tx_rx_buffer, sizeof_standardMessageBytes, standardMessageBytes;
    cbn -[firstn]; rewrite ?firstn_all2, ?app_nil_r by lia; (split; [|reflexivity]);
    split; intros; (discriminate || lia || reflexivity).
Qed.

Lemma transactional_rx_buffers_witness :
  getMessage 2 <> None /\ length [1; 2; 4; 8] = 4%nat /\
  write_transactional_rx_only_rx 2 [1; 2; 4; 8] = None.
Proof.
  split; [discriminate|]. split; [reflexivity|].
  apply (proj1 (transactional_rx_buffers 2 [1; 2; 4; 8] ltac:(discriminate) eq_refl)). lia.
Defined.

(** Extra X4: [free_and_reallocate_spi] and [async_free_and_reallocate_spi] never
    call [format]: the re-created object starts at the default 8-bit
    words, so whatever configuration the deleted object had (a 16- or
    32-bit width left by an earlier test case included), the four bytes
    go out as the standard message and the host's verification passes. *)
Theorem free_and_reallocate_standard_message cfg0 dmaUsage :
  (exists st, run free_and_reallocate_spi (logging_started_with cfg0) = Some st /\
     lookup spi (handles st) = Some (mk_cfg 8 spiFreq DMA_USAGE_NEVER) /\
     capture (mosi st) = standardMessageBytes /\
     host_verify_standard_message (capture (mosi st)) = "pass"%string) /\
  (exists st, run (async_free_and_reallocate_spi dmaUsage) (logging_started_with cfg0) = Some st /\
     lookup spi (handles st) = Some (mk_cfg 8 spiFreq dmaUsage) /\
     capture (mosi st) = standardMessageBytes /\
     host_verify_standard_message (capture (mosi st)) = "pass"%string).
Proof.
  destruct cfg0 as [b f d].
  split; eexists; (split; [reflexivity|]); vm_compute; repeat split.
Qed.

End SPIExtraClaims.

Module EEPROMFacts.
Import EEPROMTest.
Open Scope Z_scope.

Lemma store_at pre x rest v :
  store (pre ++ x :: rest) (Z.of_nat (length pre)) v = Some (pre ++ v :: rest).
Proof.
  unfold store. rewrite length_app. cbn [length].
  replace ((0 <=? Z.of_nat (length pre)) && (Z.of_nat (length pre) <? Z.of_nat (length pre + S (length rest))))
    with true by (symmetry; apply andb_true_iff; split; [apply Z.leb_le | apply Z.ltb_lt]; lia).
  rewrite Nat2Z.id, firstn_app, Nat.sub_diag, firstn_all, app_nil_r.
  change (S (length pre)) with (1 + length pre)%nat.
  rewrite skipn_app, Nat.sub_succ_l, Nat.sub_diag, skipn_all2 by lia. reflexivity.
Qed.

Lemma store_out_of_bounds buffer i v :
  (i < 0 \/ Z.of_nat (length buffer) <= i) -> store buffer i v = None.
Proof.
  intros H. unfold store.
  destruct H as [H|H]; [replace (0 <=? i) with false by (symmetry; apply Z.leb_gt; lia)
                       |replace (i <? _) with false by (symmetry; apply Z.ltb_ge; lia);
                        rewrite andb_false_r]; reflexivity.
Qed.

Lemma init_loop_ok rand n pre rest :
  (n <= length rest)%nat ->
  init_loop rand (length pre) n (pre ++ rest) =
  Some (pre ++ map (fun i => 65 + Z.rem (rand i) 26) (seq (length pre) n) ++ skipn n rest).
Proof.
  revert pre rest; induction n as [|n IH]; intros pre rest Hn.
  - reflexivity.
  - destruct rest as [|r rest]; [cbn in Hn; lia|].
    cbn [init_loop]. rewrite store_at.
    set (v := 65 + Z.rem (rand (length pre)) 26).
    replace (S (length pre)) with (length (pre ++ [v])) by (rewrite length_app; cbn; lia).
    replace (pre ++ v :: rest) with ((pre ++ [v]) ++ rest) by (rewrite <- app_assoc; reflexivity).
    rewrite IH by (cbn in Hn; lia).
    rewrite length_app. cbn [length seq map skipn].
    rewrite Nat.add_1_r, <- app_assoc. reflexivity.
Qed.

Lemma init_loop_overrun rand n pre rest :
  (length rest < n)%nat -> init_loop rand (length pre) n (pre ++ rest) = None.
Proof.
  revert pre rest; induction n as [|n IH]; intros pre rest Hn; [lia|].
  destruct rest as [|r rest].
  - cbn [init_loop]. rewrite store_out_of_bounds; [reflexivity|].
    right. rewrite length_app. cbn. lia.
  - cbn [init_loop]. rewrite store_at.
    set (v := 65 + Z.rem (rand (length pre)) 26).
    replace (S (length pre)) with (length (pre ++ [v])) by (rewrite length_app; cbn; lia).
    replace (pre ++ v :: rest) with ((pre ++ [v]) ++ rest) by (rewrite <- app_assoc; reflexivity).
    apply IH. cbn in Hn. lia.
Qed.

Lemma letters_in_range (rand : nat -> Z) xs :
  (forall i, 0 <= rand i) ->
  Forall (fun c => 65 <= c <= 90) (map (fun i => 65 + Z.rem (rand i) 26) xs).
Proof.
  intros R. apply Forall_forall. intros c Hc. apply in_map_iff in Hc as [i [<- _]].
  pose proof (Z.rem_bound_pos (rand i) 26 (R i) ltac:(lia)). lia.
Qed.

End EEPROMFacts.

Module EEPROMClaims.
Import EEPROMTest EEPROMFacts.
Open Scope Z_scope.

(** Extra X5: [init_string(buffer, len)] of the EEPROM test, for [len] from 1 to the
    array's size: the first [len - 1] characters become
    ['A' + (rand() % 26)], an upper-case letter since [rand()] is not
    negative, the character at [len - 1] becomes the terminating NUL and
    the rest of the array is untouched. For [len <= 0] it writes
    [buffer[-1]], and for [len] past the array's size its loop writes past
    the end: both are out-of-bounds stores. *)
Theorem init_string_result rand buffer len :
  (forall i, 0 <= rand i) ->
  (len <= 0 -> init_string rand buffer len = None) /\
  (Z.of_nat (length buffer) < len -> init_string rand buffer len = None) /\
  (1 <= len <= Z.of_nat (length buffer) ->
   init_string rand buffer len =
     Some (map (fun i => 65 + Z.rem (rand i) 26) (seq 0 (Z.to_nat len - 1)) ++
           0 :: skipn (Z.to_nat len) buffer) /\
   Forall (fun c => 65 <= c <= 90)
     (map (fun i => 65 + Z.rem (rand i) 26) (seq 0 (Z.to_nat len - 1)))).
Proof.
  intros R. unfold init_string. split; [|split].
  - intros Hl. replace (Z.to_nat len) with 0%nat by lia. cbn [init_loop].
    apply store_out_of_bounds. lia.
  - intros Hl. change buffer with ([] ++ buffer) at 1.
    change 0%nat with (length (@nil Z)) at 1.
    rewrite init_loop_overrun by lia. reflexivity.
  - intros Hl. split; [|apply letters_in_range, R].
    change buffer with ([] ++ buffer) at 1.
    change 0%nat with (length (@nil Z)) at 1.
    rewrite init_loop_ok by lia. cbn [app length].
    destruct (Z.to_nat len) as [|L] eqn:EL; [lia|].
    rewrite seq_S, map_app. cbn [map]. rewrite <- app_assoc. cbn [app].
    replace (len - 1) with (Z.of_nat (length (map (fun i => 65 + Z.rem (rand i) 26) (seq 0 L))))
      by (rewrite length_map, length_seq; lia).
    rewrite store_at. now replace (S L - 1)%nat with L by lia.
Qed.

Lemma init_string_result_witness :
  init_string (fun i => Z.of_nat (3 * i)) [9; 9; 9; 9; 9] 3 = Some [65; 68; 0; 9; 9].
Proof.
  destruct (init_string_result (fun i => Z.of_nat (3 * i)) [9; 9; 9; 9; 9] 3
              ltac:(intros; cbv beta; lia)) as [_ [_ H]].
  destruct (H ltac:(cbn; lia)) as [E _]. exact E.
Defined.

(** Extra X6: the SD card test's [init_string()], called once per
    [test_sd_file] case: whatever the 100 characters of [SD_TEST_STRING]
    hold (zeros at start-up, the previous case's string later), it becomes
    99 upper-case letters ['A' + (rand() % 26)] followed by the
    terminating NUL. *)
Theorem sd_init_string_result rand SD_TEST_STRING :
  (forall i, 0 <= rand i) -> length SD_TEST_STRING = SDTest.SD_TEST_STRING_MAX ->
  SDTest.init_string rand SD_TEST_STRING =
    Some (map (fun i => 65 + Z.rem (rand i) 26) (seq 0 99) ++ [0]) /\
  Forall (fun c => 65 <= c <= 90) (map (fun i => 65 + Z.rem (rand i) 26) (seq 0 99)).
Proof.
  intros R L. split; [|apply letters_in_range, R].
  unfold SDTest.init_string. unfold SDTest.SD_TEST_STRING_MAX in *.
  change (init_loop rand 0 (100 - 1) SD_TEST_STRING)
    with (init_loop rand (length (@nil Z)) 99 ([] ++ SD_TEST_STRING)).
  rewrite init_loop_ok by lia. cbn [app length].
  destruct (skipn 99 SD_TEST_STRING) as [|x [|y r]] eqn:E;
    pose proof (f_equal (@length Z) E) as LE; rewrite length_skipn in LE; cbn in LE; try lia.
  replace (Z.of_nat 100 - 1)
    with (Z.of_nat (length (map (fun i => 65 + Z.rem (rand i) 26) (seq 0 99))))
    by (rewrite length_map, length_seq; reflexivity).
  rewrite store_at. reflexivity.
Qed.

Lemma sd_init_string_result_witness :
  match SDTest.init_string (fun i => Z.of_nat i) SDTest.SD_TEST_STRING_init with
  | Some s1 =>
      exists s2, SDTest.init_string (fun i => Z.of_nat (3 * i)) s1 = Some s2 /\
                 firstn 3 s2 = [65; 68; 71]
  | None => False
  end.
Proof.
  destruct (sd_init_string_result (fun i => Z.of_nat i) SDTest.SD_TEST_STRING_init
              ltac:(intros; cbv beta; lia) eq_refl) as [E1 _].
  rewrite E1.
  destruct (sd_init_string_result (fun i => Z.of_nat (3 * i))
              (map (fun i => 65 + Z.rem (Z.of_nat i) 26) (seq 0 99) ++ [0])
              ltac:(intros; cbv beta; lia)
              ltac:(rewrite length_app, length_map, length_seq; reflexivity)) as [E2 _].
  eexists. split; [exact E2|]. vm_compute. reflexivity.
Defined.

(** Extra X7: [flash_WR]'s three checks agree. With [test_string] a string of
    [size_of_data - 1] non-NUL characters and its NUL, as [init_string]
    leaves it, the [memcmp] check and both [TEST_ASSERT_EQUAL_STRING]
    orders pass exactly when the first [size_of_data] bytes of
    [read_string] equal those of [test_string]. None of them reads past
    [read_string] once it holds [size_of_data] bytes. *)
Theorem flash_WR_checks_agree s t read_string :
  Forall (fun c => c <> 0) s -> (length s < length read_string)%nat ->
  exists b, flash_WR_checks (s ++ 0 :: t) read_string (S (length s)) = Some (b, b, b) /\
            (b = true <-> firstn (S (length s)) read_string = s ++ [0]).
Proof.
  rename read_string into read.
  unfold flash_WR_checks. revert read; induction s as [|c s IH]; intros read Hs Hl;
    destruct read as [|r read]; cbn in Hl; try lia.
  - destruct (Z.eqb_spec r 0) as [->|Nr].
    + exists true. cbn. split; [reflexivity|]. split; reflexivity.
    + exists false. cbn [app memcmp unity_equal_string length].
      rewrite (proj2 (Z.eqb_neq r 0) Nr), (proj2 (Z.eqb_neq 0 r) (not_eq_sym Nr)).
      replace (Z.eqb (0 - r) 0) with false by (symmetry; apply Z.eqb_neq; lia).
      cbn. split; [reflexivity|]. split; [discriminate|]. intros [=]. lia.
  - inversion Hs as [|? ? Hc Hs']; subst.
    destruct (IH read Hs' ltac:(lia)) as [b [E Hb]].
    change (memcmp ((c :: s) ++ 0 :: t) (r :: read) (S (length (c :: s))))
      with (if Z.eqb c r then memcmp (s ++ 0 :: t) read (S (length s)) else Some (c - r)).
    change (unity_equal_string ((c :: s) ++ 0 :: t) (r :: read))
      with (if Z.eqb c 0 && Z.eqb r 0 then Some true
            else if negb (Z.eqb c r) then Some false
            else unity_equal_string (s ++ 0 :: t) read).
    change (unity_equal_string (r :: read) ((c :: s) ++ 0 :: t))
      with (if Z.eqb r 0 && Z.eqb c 0 then Some true
            else if negb (Z.eqb r c) then Some false
            else unity_equal_string read (s ++ 0 :: t)).
    rewrite (proj2 (Z.eqb_neq c 0) Hc), andb_false_l, andb_false_r.
    destruct (Z.eqb_spec c r) as [<-|Ne].
    + rewrite Z.eqb_refl. cbn [negb]. exists b. split; [exact E|].
      change (firstn (S (length (c :: s))) (c :: read))
        with (c :: firstn (S (length s)) read).
      cbn [app]. split; intros H'.
      * f_equal. apply Hb, H'.
      * apply Hb. injection H' as H'. exact H'.
    + rewrite (proj2 (Z.eqb_neq r c) (not_eq_sym Ne)).
      replace (Z.eqb (c - r) 0) with false by (symmetry; apply Z.eqb_neq; lia).
      cbn [negb]. exists false. split; [reflexivity|]. split; [discriminate|].
      cbn [firstn app]. intros [=]. congruence.
Qed.

Lemma flash_WR_checks_agree_witness :
  exists b, flash_WR_checks ([65; 66] ++ 0 :: [7]) [65; 67; 0; 1] 3 = Some (b, b, b) /\
            (b = true <-> firstn 3 [65; 67; 0; 1] = [65; 66] ++ [0]).
Proof.
  apply (flash_WR_checks_agree [65; 66] [7] [65; 67; 0; 1]).
  - repeat constructor; lia.
  - cbn. lia.
Defined.

End EEPROMClaims.

Module EngineExtraFacts.
Import Engine.
Open Scope Z_scope.

Lemma skipn_repeat' {A} k (x : A) n : skipn k (repeat x n) = repeat x (n - k).
Proof.
  revert n; induction k as [|k IH]; intros n; [now rewrite Nat.sub_0_r|].
  destruct n; [reflexivity|]. cbn [repeat skipn]. apply IH.
Qed.
Lemma count_pattern_app l1 l2 :
  count_pattern (Some (l1 ++ l2)) = (count_pattern (Some l1) + count_pattern (Some l2))%nat.
Proof. unfold count_pattern. now rewrite filter_app, length_app. Qed.
Lemma count_pattern_repeat n : count_pattern (Some (repeat TEST_PATTERN n)) = n.
Proof.
  unfold count_pattern. induction n as [|n IH]; [reflexivity|].
  cbn [repeat filter]. rewrite Z.eqb_refl. cbn [length]. now rewrite IH.
Qed.
End EngineExtraFacts.

Module EngineExtraClaims.
Import Engine EngineFacts EngineExtraFacts.
Open Scope Z_scope.

(** Extra X8 ([async_queue_and_abort]): when the first transfer is aborted
    after [k <= 31] of its 32 words and the line carries at least [k + 32]
    words, the first callback gets an event without the completion flag,
    the second one is called with [SPI_EVENT_COMPLETE], the first receive
    buffer keeps
    [32 - k] pattern words plus the pattern words among the [k] received,
    and the second buffer holds as many pattern words as the 32 words it
    received. *)
Theorem async_queue_and_abort_counts k miso :
  (k <= 31)%nat -> (k + 32 <= length miso)%nat ->
  exists ev1,
    async_queue_and_abort k miso =
      Some (ev1, SPI_EVENT_COMPLETE, (32 - k + count_pattern (Some (firstn k miso)))%nat,
            count_pattern (Some (firstn 32 (skipn k miso)))) /\
    Z.land ev1 SPI_EVENT_COMPLETE = 0.
Proof.
  intros Hk Hl. exists SPI_EVENT_ABORTED. split; [|reflexivity].
  unfold async_queue_and_abort.
  set (buf := Some (repeat TEST_PATTERN 32)).
  set (T1 := mk_transfer 0 (Some longMessage) buf [] SPI_EVENT_ALL).
  set (T2 := mk_transfer 1 (Some longMessage) buf [] SPI_EVENT_ALL).
  replace (enqueue (Some longMessage) buf SPI_EVENT_ALL init)
    with (inl (A := nat * engine) (B := engine_error) (0%nat, mk_engine [T1] [] [0%nat] 1)) by reflexivity.
  replace (enqueue (Some longMessage) buf SPI_EVENT_ALL (mk_engine [T1] [] [0%nat] 1))
    with (inl (A := nat * engine) (B := engine_error) (1%nat, mk_engine [T1; T2] [] [0%nat] 2)) by reflexivity.
  set (g1 := firstn k miso). set (g2 := firstn 32 (skipn k miso)).
  assert (L1 : length g1 = k) by (unfold g1; rewrite length_firstn; lia).
  assert (L2 : length g2 = 32%nat) by (unfold g2; rewrite length_firstn, length_skipn; lia).
  assert (NE : g2 <> []) by (intros E; rewrite E in L2; discriminate).
  clearbody g1 g2.
  match goal with |- context [clock_words g1 ?e] =>
    rewrite (clock_words_partial g1 e _ _ eq_refl) by (cbn; lia) end.
  cbn [abort_transfer queue].
  match goal with |- context [clock_words g2 ?e] =>
    rewrite (clock_words_complete g2 e _ _ eq_refl); [| cbn; lia | exact NE] end.
  cbn [find_retired retired advance rid xid app Nat.eqb completion_record observed_event callback_event rx_final got T1 T2 result].
  cbn [with_got xid T1 T2 Nat.eqb completion_record rx_final callback_event observed_event event_mask].
  unfold rx_contents; cbn [rx_buf got option_map with_got T1 T2 buf].
  rewrite repeat_length, (firstn_all2 g1) by lia.
  rewrite (firstn_all2 g2) by lia.
  rewrite L1, L2, skipn_repeat', (skipn_all2 (repeat _ 32)) by (rewrite repeat_length; lia).
  rewrite app_nil_r, count_pattern_app, count_pattern_repeat.
  f_equal. f_equal. f_equal. lia.
Qed.

Lemma async_queue_and_abort_counts_witness :
  (3 <= 31)%nat /\ (3 + 32 <= length (repeat 0 40))%nat /\
  exists ev1, async_queue_and_abort 3 (repeat 0 40) = Some (ev1, SPI_EVENT_COMPLETE, 29%nat, 0%nat).
Proof.
  split; [lia|]. split; [cbn; lia|].
  destruct (async_queue_and_abort_counts 3 (repeat 0 40) ltac:(lia) ltac:(cbn; lia))
    as [ev1 [E _]].
  exists ev1. rewrite E. reflexivity.
Defined.

End EngineExtraClaims.
